(** * Football Tournament Manager: scheduler and standings

    A shallow embedding of [src/main.py] (the round-robin pairing generator,
    the schedule and score handlers, the standings computation) and of the
    [Match] schema of [src/schemas.py], with the properties the
    specification states about them. *)

From Stdlib Require Import String Ascii.
From Stdlib Require Import List Arith ZArith Lia Bool Permutation Sorted.
Import ListNotations.

Local Open Scope string_scope.
Local Open Scope nat_scope.
Local Open Scope list_scope.

(** ** Python exceptions as [option]

    An [IndexError] raised by a subscript is [None]; the notation threads it
    through a sequence of statements. *)

Definition bind {A B : Type} (c : option A) (k : A -> option B) : option B :=
  match c with
  | Some a => k a
  | None => None
  end.

Notation "x <- c ;; k" := (bind c (fun x => k))
  (at level 61, c at next level, right associativity).

(** * The scheduler: [round_robin_pairings] *)

Module Scheduler.

(** The placeholder appended to an odd team list. *)
Definition BYE : string := "BYE".

(** [a != "BYE" and b != "BYE"] *)
Definition keep (p : string * string) : bool :=
  negb (String.eqb (fst p) BYE) && negb (String.eqb (snd p) BYE).

(** [teams[-1]]: the last element, [IndexError] on the empty list. *)
Definition subscript_last (teams : list string) : option string :=
  match teams with
  | [] => None
  | x :: t => Some (last t x)
  end.

(** [teams[1:-1]]: slicing never raises. *)
Definition slice_1_m1 (teams : list string) : list string :=
  removelast (tl teams).

(** [[teams[0]] + [teams[-1]] + teams[1:-1]] *)
Definition rotate (teams : list string) : option (list string) :=
  x <- nth_error teams 0 ;;
  y <- subscript_last teams ;;
  Some ([x] ++ [y] ++ slice_1_m1 teams).

(** The body of [for i in range(half)], run over the remaining values of [i].
    Both subscripts are non-negative there ([i < half] gives
    [n - 1 - i >= half]), so the truncated subtraction of [nat] is Python's. *)
Fixpoint inner_loop (teams : list string) (n : nat) (range : list nat)
    (pairings : list (string * string)) : option (list (string * string)) :=
  match range with
  | [] => Some pairings
  | i :: range' =>
      a <- nth_error teams i ;;
      b <- nth_error teams (n - 1 - i) ;;
      inner_loop teams n range'
        (if keep (a, b) then pairings ++ [(a, b)] else pairings)
  end.

(** The body of [for r in range(rounds)]; the state is the working list
    [teams] and the [schedule] built so far. *)
Fixpoint outer_loop (range : list nat) (n half : nat) (teams : list string)
    (schedule : list (list (string * string)))
    : option (list (list (string * string))) :=
  match range with
  | [] => Some schedule
  | _ :: range' =>
      pairings <- inner_loop teams n (seq 0 half) [] ;;
      teams' <- rotate teams ;;
      outer_loop range' n half teams' (schedule ++ [pairings])
  end.

(** [teams = team_ids.copy()], padded when [len(teams) % 2 == 1]. *)
Definition padded (team_ids : list string) : list string :=
  if Nat.odd (length team_ids) then team_ids ++ [BYE] else team_ids.

(** [rounds = n - 1] is [-1] in Python when the list is empty, and
    [range(-1)] is as empty as [range(0)]. *)
Definition round_robin_pairings (team_ids : list string)
    : option (list (string * string)) :=
  let teams := padded team_ids in
  let n := length teams in
  let rounds := n - 1 in
  let half := n / 2 in
  schedule <- outer_loop (seq 0 rounds) n half teams [] ;;
  Some (concat schedule).

(** How often the fixture between [a] and [b] occurs in a pairing list,
    whichever side is home. *)
Definition is_fixture (a b : string) (p : string * string) : bool :=
  (String.eqb (fst p) a && String.eqb (snd p) b)
  || (String.eqb (fst p) b && String.eqb (snd p) a).

Definition fixture_count (a b : string) (out : list (string * string)) : nat :=
  length (filter (is_fixture a b) out).

(** ** A closed form of the schedule *)

(** The rotation on a list that has a first element. *)
Definition rot (teams : list string) : list string :=
  match teams with
  | [] => []
  | x :: t => x :: last t x :: removelast t
  end.

Definition round_pairs (n half : nat) (teams : list string)
    : list (string * string) :=
  filter keep
    (map (fun i => (nth i teams BYE, nth (n - 1 - i) teams BYE)) (seq 0 half)).

Definition schedule_of (teams : list string) : list (string * string) :=
  let n := length teams in
  flat_map (fun r => round_pairs n (n / 2) (Nat.iter r rot teams))
    (seq 0 (n - 1)).

(** The index, in the initial list, of the element that sits at position [j]
    after [r] rotations of a list of [m + 1] elements. *)
Definition pos (m r j : nat) : nat :=
  if j =? 0 then 0 else if r <? j then j - r else j + m - r.

(** The fixture of slot [i] in round [r], as a pair of initial indices, and
    the index pairs of a whole schedule over [2 * h] positions. *)
Definition fixture_at (h r i : nat) : nat * nat :=
  (pos (2 * h - 1) r i, pos (2 * h - 1) r (2 * h - 1 - i)).

Definition index_pairs (h : nat) : list (nat * nat) :=
  flat_map (fun r => map (fixture_at h r) (seq 0 h)) (seq 0 (2 * h - 1)).

(** What the initial indices [a] and [b] of the two sides of a fixture of
    round [r] satisfy, [m + 1] being the number of positions. *)
Definition meet (m r a b : nat) : Prop :=
  a <> b /\ a <= m /\ b <= m /\
  ((a = 0 /\ b + r = m) \/ (b = 0 /\ a + r = m) \/
   (0 < a /\ 0 < b /\
    (a + b + 2 * r = m \/ a + b + 2 * r = 2 * m \/ a + b + 2 * r = 3 * m))).

(** An unordered pair, smaller index first. *)
Definition norm (p : nat * nat) : nat * nat :=
  (Nat.min (fst p) (snd p), Nat.max (fst p) (snd p)).

Definition pair_eqb (p q : nat * nat) : bool :=
  (fst p =? fst q) && (snd p =? snd q).

(** Both indices are below [k], the number of real teams. *)
Definition both_lt (k : nat) (p : nat * nat) : bool :=
  (fst p <? k) && (snd p <? k).

(** The fixture between the teams at the indices of [p]. *)
Definition teams_at (teams : list string) (p : nat * nat) : string * string :=
  (nth (fst p) teams BYE, nth (snd p) teams BYE).

(** All the pairs [x < y < n]. *)
Definition all_pairs (n : nat) : list (nat * nat) :=
  flat_map (fun y => map (fun x => (x, y)) (seq 0 y)) (seq 0 n).

End Scheduler.

(** * The [Match] schema of [schemas.py] *)

Module Schemas.

(** [Literal["scheduled", "completed"]] *)
Inductive match_status : Type := scheduled | completed.

(** A match, as the schema declares it and as the [match] collection stores
    it. A score is [None] when the document holds no integer under the key.
    [scheduled_date] is an ISO date; no code under study reads or writes it. *)
Record Match : Type := mkMatch {
  tournament_id : string;
  home_team_id : string;
  away_team_id : string;
  scheduled_date : option string;
  status : match_status;
  home_score : option Z;
  away_score : option Z
}.

(** [Field(None, ge=0)] *)
Definition ge0 (v : option Z) : bool :=
  match v with
  | Some z => (0 <=? z)%Z
  | None => true
  end.

(** What the validators of [Match] accept. *)
Definition Match_valid (m : Match) : bool :=
  ge0 (home_score m) && ge0 (away_score m).

End Schemas.

(** * The standings computation: [standings] *)

Module Standings.

Import Schemas.
Local Open Scope Z_scope.

(** A team document as [standings] reads it: [str(t["_id"])] and
    [t.get("name")]. *)
Record team_doc : Type := mkTeam {
  doc_id : string;
  doc_name : option string
}.

(** A row of the table, the dict built for each team. *)
Record row : Type := mkRow {
  team_id : string;
  name : option string;
  played : Z;
  won : Z;
  drawn : Z;
  lost : Z;
  gf : Z;
  ga : Z;
  gd : Z;
  points : Z
}.

(** [team_map]: a dict, so its keys are pairwise different and it keeps the
    order in which they were first inserted. *)
Definition team_map : Type := list (string * row).

Fixpoint dict_get (tm : team_map) (k : string) : option row :=
  match tm with
  | [] => None
  | (k', v) :: tm' => if String.eqb k' k then Some v else dict_get tm' k
  end.

(** [tm[k] = v]: a key already present keeps its place. *)
Fixpoint dict_set (tm : team_map) (k : string) (v : row) : team_map :=
  match tm with
  | [] => [(k, v)]
  | (k', v') :: tm' =>
      if String.eqb k' k then (k', v) :: tm' else (k', v') :: dict_set tm' k v
  end.

(** A write through the reference that [team_map.get(k)] returned: the row
    stored under [k] changes in the shared table. Two references are the
    same row exactly when their keys are equal. *)
Definition dict_update (tm : team_map) (k : string) (f : row -> row) : team_map :=
  map (fun e => if String.eqb (fst e) k then (fst e, f (snd e)) else e) tm.

Definition initial_row (t : team_doc) : row :=
  mkRow (doc_id t) (doc_name t) 0 0 0 0 0 0 0 0.

(** The dict comprehension over [team_docs]. *)
Definition init_table (team_docs : list team_doc) : team_map :=
  fold_left (fun tm t => dict_set tm (doc_id t) (initial_row t)) team_docs [].

(** The assignments to the fields of a row. *)
Definition add_played (n : Z) (r : row) : row :=
  mkRow (team_id r) (name r) (played r + n) (won r) (drawn r) (lost r)
        (gf r) (ga r) (gd r) (points r).
Definition add_won (n : Z) (r : row) : row :=
  mkRow (team_id r) (name r) (played r) (won r + n) (drawn r) (lost r)
        (gf r) (ga r) (gd r) (points r).
Definition add_drawn (n : Z) (r : row) : row :=
  mkRow (team_id r) (name r) (played r) (won r) (drawn r + n) (lost r)
        (gf r) (ga r) (gd r) (points r).
Definition add_lost (n : Z) (r : row) : row :=
  mkRow (team_id r) (name r) (played r) (won r) (drawn r) (lost r + n)
        (gf r) (ga r) (gd r) (points r).
Definition add_gf (n : Z) (r : row) : row :=
  mkRow (team_id r) (name r) (played r) (won r) (drawn r) (lost r)
        (gf r + n) (ga r) (gd r) (points r).
Definition add_ga (n : Z) (r : row) : row :=
  mkRow (team_id r) (name r) (played r) (won r) (drawn r) (lost r)
        (gf r) (ga r + n) (gd r) (points r).
Definition add_points (n : Z) (r : row) : row :=
  mkRow (team_id r) (name r) (played r) (won r) (drawn r) (lost r)
        (gf r) (ga r) (gd r) (points r + n).
(** [x["gd"] = x["gf"] - x["ga"]] *)
Definition set_gd (r : row) : row :=
  mkRow (team_id r) (name r) (played r) (won r) (drawn r) (lost r)
        (gf r) (ga r) (gf r - ga r) (points r).

(** [int(m.get(key, 0))] on a stored score: the key is missing, or it holds
    the integer that [update_score], the one writer of the status completed,
    put there together with the status. *)
Definition score (v : option Z) : Z :=
  match v with
  | Some z => z
  | None => 0
  end.

(** Both identifiers of the match are keys of the table. A row is never an
    empty dict, so [not h] holds only when the lookup returned [None]. *)
Definition resolves (tm : team_map) (m : Match) : bool :=
  match dict_get tm (home_team_id m), dict_get tm (away_team_id m) with
  | Some _, Some _ => true
  | _, _ => false
  end.

(** The statements of the loop body after the [continue], in their order;
    [h] and [a] stand for the references to the two rows. *)
Definition record_result (tm : team_map) (m : Match) : team_map :=
  let h := home_team_id m in
  let a := away_team_id m in
  let hs := score (home_score m) in
  let as_ := score (away_score m) in
  let tm := dict_update tm h (add_played 1) in
  let tm := dict_update tm a (add_played 1) in
  let tm := dict_update tm h (add_gf hs) in
  let tm := dict_update tm h (add_ga as_) in
  let tm := dict_update tm a (add_gf as_) in
  let tm := dict_update tm a (add_ga hs) in
  let tm := dict_update tm h set_gd in
  let tm := dict_update tm a set_gd in
  if hs >? as_ then
    let tm := dict_update tm h (add_won 1) in
    let tm := dict_update tm a (add_lost 1) in
    dict_update tm h (add_points 3)
  else if hs <? as_ then
    let tm := dict_update tm a (add_won 1) in
    let tm := dict_update tm h (add_lost 1) in
    dict_update tm a (add_points 3)
  else
    let tm := dict_update tm h (add_drawn 1) in
    let tm := dict_update tm a (add_drawn 1) in
    let tm := dict_update tm h (add_points 1) in
    dict_update tm a (add_points 1).

(** One iteration of [for m in matches]. *)
Definition process_match (tm : team_map) (m : Match) : team_map :=
  if resolves tm m then record_result tm m else tm.

(** The sort key [(x["points"], x["gd"], x["gf"])] and the order of Python
    tuples. *)
Definition key (r : row) : Z * Z * Z := (points r, gd r, gf r).

Definition key_ltb (x y : Z * Z * Z) : bool :=
  let '(p1, d1, f1) := x in
  let '(p2, d2, f2) := y in
  (p1 <? p2) || ((p1 =? p2) && ((d1 <? d2) || ((d1 =? d2) && (f1 <? f2)))).

(** [list.sort(key=..., reverse=True)] is a builtin; it is modelled by its
    contract, a stable sort: with [reverse=True] the keys descend and
    elements with equal keys still keep their original order. Inserting
    from the right, an element stops in front of the first element whose key
    is not greater, so in front of those with an equal key, which came after
    it. *)
Fixpoint insert_desc (x : row) (l : list row) : list row :=
  match l with
  | [] => [x]
  | y :: l' => if key_ltb (key x) (key y) then y :: insert_desc x l' else x :: l
  end.

Definition sort_desc (l : list row) : list row := fold_right insert_desc [] l.

(** [table = list(team_map.values())] once the loop is over. [team_docs] and
    [matches] are the results of the two queries: the team documents of the
    tournament and its matches of status completed. *)
Definition table (team_docs : list team_doc) (matches : list Match) : list row :=
  map snd (fold_left process_match matches (init_table team_docs)).

Definition standings (team_docs : list team_doc) (matches : list Match)
    : list row :=
  sort_desc (table team_docs matches).

(** The writes of the loop body as a list, and their effect on the row
    stored under [k]. *)
Definition assignments (m : Match) : list (string * (row -> row)) :=
  let h := home_team_id m in
  let a := away_team_id m in
  let hs := score (home_score m) in
  let as_ := score (away_score m) in
  [(h, add_played 1); (a, add_played 1); (h, add_gf hs); (h, add_ga as_);
   (a, add_gf as_); (a, add_ga hs); (h, set_gd); (a, set_gd)]
  ++ (if hs >? as_ then [(h, add_won 1); (a, add_lost 1); (h, add_points 3)]
      else if hs <? as_ then [(a, add_won 1); (h, add_lost 1); (a, add_points 3)]
      else [(h, add_drawn 1); (a, add_drawn 1); (h, add_points 1);
            (a, add_points 1)]).

Definition run_on (k : string) (steps : list (string * (row -> row))) (r : row)
    : row :=
  fold_left (fun r s => if String.eqb k (fst s) then snd s r else r) steps r.

(** The total effect of one match on the row stored under [k]. *)
Definition home_part (m : Match) (r : row) : row :=
  let hs := score (home_score m) in
  let as_ := score (away_score m) in
  mkRow (team_id r) (name r) (played r + 1)
        (won r + (if hs >? as_ then 1 else 0))
        (drawn r + (if hs =? as_ then 1 else 0))
        (lost r + (if hs <? as_ then 1 else 0))
        (gf r + hs) (ga r + as_) (gf r + hs - (ga r + as_))
        (points r + (if hs >? as_ then 3 else if hs =? as_ then 1 else 0)).

Definition away_part (m : Match) (r : row) : row :=
  let hs := score (home_score m) in
  let as_ := score (away_score m) in
  mkRow (team_id r) (name r) (played r + 1)
        (won r + (if hs <? as_ then 1 else 0))
        (drawn r + (if hs =? as_ then 1 else 0))
        (lost r + (if hs >? as_ then 1 else 0))
        (gf r + as_) (ga r + hs) (gf r + as_ - (ga r + hs))
        (points r + (if hs <? as_ then 3 else if hs =? as_ then 1 else 0)).

(** A team playing itself: both references are the one row. *)
Definition self_part (m : Match) (r : row) : row :=
  let hs := score (home_score m) in
  let as_ := score (away_score m) in
  mkRow (team_id r) (name r) (played r + 2)
        (won r + (if hs =? as_ then 0 else 1))
        (drawn r + (if hs =? as_ then 2 else 0))
        (lost r + (if hs =? as_ then 0 else 1))
        (gf r + hs + as_) (ga r + as_ + hs) (gf r + hs + as_ - (ga r + as_ + hs))
        (points r + (if hs =? as_ then 2 else 3)).

Definition effect (m : Match) (k : string) (r : row) : row :=
  match String.eqb k (home_team_id m), String.eqb k (away_team_id m) with
  | true, true => self_part m r
  | true, false => home_part m r
  | false, true => away_part m r
  | false, false => r
  end.

Definition decisive (m : Match) : bool :=
  negb (score (home_score m) =? score (away_score m)).

Definition sum_of (f : row -> Z) (rows : list row) : Z :=
  fold_right (fun r acc => f r + acc) 0 rows.

(** Tied on all three keys. *)
Definition key_eqb (x y : Z * Z * Z) : bool :=
  let '(p1, d1, f1) := x in
  let '(p2, d2, f2) := y in
  (p1 =? p2) && (d1 =? d2) && (f1 =? f2).

Definition tied_with (k : Z * Z * Z) (r : row) : bool := key_eqb (key r) k.

(** The two identities every row is to satisfy. *)
Definition row_invariant (r : row) : Prop :=
  gd r = gf r - ga r /\ points r = 3 * won r + 1 * drawn r.

(** The match is in the table: one of the matches the loop does not skip. *)
Definition counted (team_docs : list team_doc) (m : Match) : bool :=
  resolves (init_table team_docs) m.

Definition count_matches (p : Match -> bool) (ms : list Match) : Z :=
  Z.of_nat (length (filter p ms)).

(** [k] is one of the two sides of [m]. *)
Definition plays (m : Match) (k : string) : bool :=
  String.eqb k (home_team_id m) || String.eqb k (away_team_id m).

(** A missing score replaced by 0. *)
Definition with_default_scores (m : Match) : Match :=
  mkMatch (tournament_id m) (home_team_id m) (away_team_id m)
          (scheduled_date m) (status m)
          (Some (score (home_score m))) (Some (score (away_score m))).

(** [x] may stand before [y] in the sorted table. *)
Definition key_ge (x y : row) : Prop := key_ltb (key x) (key y) = false.

End Standings.

(** * The handlers [generate_schedule] and [update_score] *)

Module Handlers.

Import Schemas.

(** How a handler ends: it returns a value, raises [HTTPException], or lets
    another exception escape. *)
Inductive outcome (A : Type) : Type :=
  | Returns (a : A)
  | HTTPException (status_code : nat) (detail : string)
  | Raises.
Arguments Returns {A} a.
Arguments HTTPException {A} status_code detail.
Arguments Raises {A}.

(** [GenerateScheduleRequest] and [UpdateScoreRequest]; the two scores are
    declared [int], with no bound. *)
Record GenerateScheduleRequest : Type := mkGenerate {
  gs_tournament_id : string
}.

Record UpdateScoreRequest : Type := mkUpdate {
  match_id : string;
  us_home_score : Z;
  us_away_score : Z
}.

(** A tournament document, as far as [generate_schedule] reads it:
    [t.get("team_ids", [])]. *)
Record tournament_doc : Type := mkTournament {
  team_ids : option (list string)
}.

Section Persistence.

(** [bson.ObjectId]: the identifiers of stored documents, their equality,
    and the constructor from a string, [None] when it raises. *)
Variable ObjectId : Type.
Variable ObjectId_eqb : ObjectId -> ObjectId -> bool.
Variable ObjectId_of_str : string -> option ObjectId.

(** The two collections the handlers touch, each document under its [_id]. *)
Record database : Type := mkDatabase {
  tournament : list (ObjectId * tournament_doc);
  match_ : list (ObjectId * Match)
}.

(** [create_document("match", match)] of [database.py], which is not part of
    the sources at hand: it returns the new state and the new identifier,
    [None] when it raises. *)
Variable create_document : database -> Match -> database * option string.

(** [db[collection].find_one({"_id": o})] *)
Fixpoint find_one {D : Type} (docs : list (ObjectId * D)) (o : ObjectId)
    : option D :=
  match docs with
  | [] => None
  | (o', d) :: docs' => if ObjectId_eqb o' o then Some d else find_one docs' o
  end.

(** [db[collection].update_one({"_id": o}, {"$set": ...})]: the first
    document with that identifier is updated. *)
Fixpoint update_one {D : Type} (docs : list (ObjectId * D)) (o : ObjectId)
    (set : D -> D) : list (ObjectId * D) :=
  match docs with
  | [] => []
  | (o', d) :: docs' =>
      if ObjectId_eqb o' o then (o', set d) :: docs'
      else (o', d) :: update_one docs' o set
  end.

(** The loop of [generate_schedule] over the pairings. *)
Fixpoint create_matches (db : database) (tournament_id : string)
    (pairings : list (string * string)) (created : list string)
    : database * outcome (list string) :=
  match pairings with
  | [] => (db, Returns created)
  | (home_id, away_id) :: pairings' =>
      let m := mkMatch tournament_id home_id away_id None scheduled None None in
      match create_document db m with
      | (db', Some new_id) =>
          create_matches db' tournament_id pairings' (created ++ [new_id])
      | (db', None) => (db', Raises)
      end
  end.

Definition generate_schedule (db : database) (payload : GenerateScheduleRequest)
    : database * outcome (list string) :=
  match ObjectId_of_str (gs_tournament_id payload) with
  | None => (db, HTTPException 400 "Invalid id format")
  | Some o =>
      match find_one (tournament db) o with
      | None => (db, HTTPException 404 "Tournament not found")
      | Some t =>
          let ids := match team_ids t with Some l => l | None => [] end in
          if length ids <? 2
          then (db, HTTPException 400 "At least two teams required")
          else
            match Scheduler.round_robin_pairings ids with
            | None => (db, Raises)
            | Some pairings =>
                create_matches db (gs_tournament_id payload) pairings []
            end
      end
  end.

(** What BSON can encode of a Python [int]: 8 bytes, signed. On a larger
    one the driver raises [OverflowError] while it encodes the update, and
    nothing is sent to the collection. *)
Definition int64 (z : Z) : bool :=
  ((- 2 ^ 63 <=? z) && (z <? 2 ^ 63))%Z.

(** The [$set] of [update_score]. *)
Definition set_result (home away : Z) (m : Match) : Match :=
  mkMatch (tournament_id m) (home_team_id m) (away_team_id m)
          (scheduled_date m) completed (Some home) (Some away).

Definition update_score (db : database) (payload : UpdateScoreRequest)
    : database * outcome bool :=
  match ObjectId_of_str (match_id payload) with
  | None => (db, HTTPException 400 "Invalid id format")
  | Some o =>
      match find_one (match_ db) o with
      | None => (db, HTTPException 404 "Match not found")
      | Some _ =>
          if int64 (us_home_score payload) && int64 (us_away_score payload)
          then
            (mkDatabase (tournament db)
               (update_one (match_ db) o
                  (set_result (us_home_score payload) (us_away_score payload))),
             Returns true)
          else (db, Raises)
      end
  end.

End Persistence.

(** A persistence layer to run the handlers on: the identifiers are the
    strings themselves, every string is one, and a created match is appended
    under a name longer than those given before. *)
Definition next_id (docs : list (string * Match)) : string :=
  fold_right (fun _ s => String "m" s) "m" docs.

Definition store_match (db : database string) (m : Match)
    : database string * option string :=
  let new_id := next_id (match_ string db) in
  (mkDatabase string (tournament string db) (match_ string db ++ [(new_id, m)]),
   Some new_id).

End Handlers.

(** * The rounds of a schedule *)

Module Rounds.

Import Scheduler.

(** [schedule] as it is just before the [return] of [round_robin_pairings]:
    one list of pairings per round. *)
Definition rounds_of (team_ids : list string)
    : option (list (list (string * string))) :=
  let teams := padded team_ids in
  let n := length teams in
  outer_loop (seq 0 (n - 1)) n (n / 2) teams [].

(** The teams that play in a round, home side first. *)
Definition participants (round : list (string * string)) : list string :=
  flat_map (fun p => [fst p; snd p]) round.

(** The slot of round [r] that holds the last of [2 * h] initial
    positions, where the placeholder of an odd list starts. *)
Definition bye_slot (h r : nat) : nat :=
  if r =? 0 then 0 else if r <? h then r else 2 * h - 1 - r.

End Rounds.

(** * The other schemas and handlers: [create_tournament], [standings] *)

Module Registry.

Import Schemas Handlers.

(** [Team] and [Tournament] of [schemas.py]. The dates are ISO dates;
    [format] has the one value ["round_robin"]. *)
Record Team : Type := mkTeamRecord {
  team_name : string;
  city : option string;
  logo_url : option string
}.

Record Tournament : Type := mkTournamentRecord {
  tournament_name : string;
  start_date : option string;
  tournament_team_ids : list string
}.

Definition is_completed (s : match_status) : bool :=
  match s with
  | completed => true
  | scheduled => false
  end.

Section Persistence.

Variable ObjectId : Type.
Variable ObjectId_eqb : ObjectId -> ObjectId -> bool.
Variable ObjectId_of_str : string -> option ObjectId.
(** [str(o)] *)
Variable ObjectId_str : ObjectId -> string.

(** The [team] collection beside the two others. *)
Record store : Type := mkStore {
  team : list (ObjectId * Team);
  collections : database ObjectId
}.

(** [create_document("tournament", tournament)] of [database.py]. *)
Variable create_document : store -> Tournament -> store * option string.

(** [[oid(t) for t in ids]]: the first identifier that [ObjectId] refuses
    raises, which is [None]. *)
Fixpoint oids_of (ids : list string) : option (list ObjectId) :=
  match ids with
  | [] => Some []
  | t :: ids' =>
      match ObjectId_of_str t with
      | None => None
      | Some o =>
          match oids_of ids' with
          | None => None
          | Some os => Some (o :: os)
          end
      end
  end.

(** The filter [{"_id": {"$in": os}}]. *)
Definition id_in (os : list ObjectId) (d : ObjectId * Team) : bool :=
  existsb (ObjectId_eqb (fst d)) os.

(** [db["team"].count_documents({"_id": {"$in": os}})] *)
Definition count_documents_in (docs : list (ObjectId * Team))
    (os : list ObjectId) : nat :=
  length (filter (id_in os) docs).

Definition create_tournament (st : store) (tournament : Tournament)
    : store * outcome string :=
  let create :=
    match create_document st tournament with
    | (st', Some new_id) => (st', Returns new_id)
    | (st', None) => (st', Raises)
    end in
  match tournament_team_ids tournament with
  | [] => create
  | _ :: _ =>
      match oids_of (tournament_team_ids tournament) with
      | None => (st, HTTPException 400 "Invalid id format")
      | Some os =>
          if count_documents_in (team st) os
             =? length (tournament_team_ids tournament)
          then create
          else (st, HTTPException 400 "One or more team ids are invalid")
      end
  end.

(** [db["match"].find({"tournament_id": tid, "status": "completed"})] *)
Definition find_completed (docs : list (ObjectId * Match)) (tid : string)
    : list Match :=
  map snd
    (filter (fun d => String.eqb (tournament_id (snd d)) tid
                      && is_completed (status (snd d))) docs).

(** A team document of the query result, as the table reads it. *)
Definition as_team_doc (d : ObjectId * Team) : Standings.team_doc :=
  Standings.mkTeam (ObjectId_str (fst d)) (Some (team_name (snd d))).

(** The handler [standings]. On line 191 the subscript [["team_ids"]] is
    applied to what [find_one] returned: [None] raises [TypeError], a
    document without the key raises [KeyError]. *)
Definition standings (st : store) (tournament_id : string)
    : outcome (list Standings.row) :=
  match ObjectId_of_str tournament_id with
  | None => HTTPException 400 "Invalid id format"
  | Some o =>
      match find_one ObjectId ObjectId_eqb
              (tournament ObjectId (collections st)) o with
      | None => Raises
      | Some t =>
          match team_ids t with
          | None => Raises
          | Some ids =>
              match oids_of ids with
              | None => HTTPException 400 "Invalid id format"
              | Some os =>
                  let team_docs := map as_team_doc (filter (id_in os) (team st)) in
                  let matches :=
                    find_completed (match_ ObjectId (collections st))
                      tournament_id in
                  Returns (Standings.standings team_docs matches)
              end
          end
      end
  end.

End Persistence.

End Registry.

(** * Properties of the scheduler *)

Section SchedulerClosedForm.

Import Scheduler.

Lemma inner_loop_spec (teams : list string) (n : nat) :
  forall (range : list nat) (pairings : list (string * string)),
    (forall i, In i range -> i < length teams /\ n - 1 - i < length teams) ->
    inner_loop teams n range pairings
    = Some (pairings ++ filter keep
              (map (fun i => (nth i teams BYE, nth (n - 1 - i) teams BYE)) range)).
Proof.
  induction range as [|i range IH]; intros pairings Hin; cbn [inner_loop].
  - now rewrite app_nil_r.
  - destruct (Hin i (or_introl eq_refl)) as [Hi Hj].
    rewrite (nth_error_nth' teams BYE Hi), (nth_error_nth' teams BYE Hj).
    cbn [bind map filter]. rewrite IH by (intros; apply Hin; now right).
    destruct (keep _); [rewrite <- app_assoc|]; reflexivity.
Qed.

Lemma rotate_rot (teams : list string) :
  teams <> [] -> rotate teams = Some (rot teams).
Proof. destruct teams as [|x t]; [congruence | reflexivity]. Qed.

Lemma length_rot (teams : list string) :
  2 <= length teams -> length (rot teams) = length teams.
Proof.
  destruct teams as [|x [|y t]]; cbn [length]; try lia. intros _.
  unfold rot. cbn [length]. rewrite removelast_firstn_len, length_firstn.
  cbn [length]. lia.
Qed.

Lemma length_iter_rot (teams : list string) (r : nat) :
  2 <= length teams -> length (Nat.iter r rot teams) = length teams.
Proof.
  intros H. induction r as [|r IH]; [reflexivity|].
  cbn [Nat.iter nat_rect]. fold (Nat.iter r rot teams).
  rewrite length_rot; lia.
Qed.

Lemma outer_loop_spec (n half : nat) :
  half <= n ->
  forall (range : list nat) (teams : list string) schedule,
    length teams = n -> (2 <= n \/ range = []) ->
    outer_loop range n half teams schedule
    = Some (schedule ++ map (fun r => round_pairs n half (Nat.iter r rot teams))
                          (seq 0 (length range))).
Proof.
  intros Hh. induction range as [|r0 range IH]; intros teams schedule Hlen Hn.
  - cbn. now rewrite app_nil_r.
  - destruct Hn as [Hn|]; [|discriminate].
    cbn [outer_loop]. rewrite inner_loop_spec.
    2:{ intros i Hi. apply in_seq in Hi. lia. }
    cbn [bind app]. rewrite rotate_rot by (destruct teams; cbn in *; [lia|congruence]).
    cbn [bind]. rewrite IH by (rewrite ?length_rot; auto; lia).
    rewrite <- app_assoc. cbn [length seq map app Nat.iter nat_rect].
    rewrite <- seq_shift, map_map. do 3 f_equal.
    apply map_ext. intros r. now rewrite Nat.iter_succ_r.
Qed.

Lemma length_padded_even (team_ids : list string) :
  Nat.even (length (padded team_ids)) = true.
Proof.
  unfold padded. destruct (Nat.odd (length team_ids)) eqn:E.
  - rewrite last_length, Nat.even_succ. exact E.
  - now rewrite <- Nat.negb_odd, E.
Qed.

(** The function raises nothing: it returns the closed form of the schedule
    of the padded list. *)
Lemma round_robin_pairings_closed (team_ids : list string) :
  round_robin_pairings team_ids = Some (schedule_of (padded team_ids)).
Proof.
  unfold round_robin_pairings, schedule_of.
  set (teams := padded team_ids).
  assert (Hev : Nat.even (length teams) = true) by apply length_padded_even.
  apply Nat.even_spec in Hev. destruct Hev as [h Hh].
  rewrite outer_loop_spec.
  - cbn [bind app]. now rewrite length_seq, flat_map_concat_map.
  - apply Nat.Div0.div_le_upper_bound. lia.
  - reflexivity.
  - destruct h as [|h]; [right|left; lia].
    rewrite Hh. reflexivity.
Qed.

End SchedulerClosedForm.

Section SchedulerIndices.

Import Scheduler.

Ltac pos_cases :=
  unfold pos in *;
  repeat match goal with
  | |- context [?a =? ?b] => destruct (Nat.eqb_spec a b)
  | |- context [?a <? ?b] => destruct (Nat.ltb_spec a b)
  | H : context [?a =? ?b] |- _ => destruct (Nat.eqb_spec a b)
  | H : context [?a <? ?b] |- _ => destruct (Nat.ltb_spec a b)
  end.

Lemma last_as_nth (t : list string) (x d : string) :
  t <> [] -> last t x = nth (length t - 1) t d.
Proof.
  induction t as [|y t IH]; [congruence|]. intros _.
  destruct t as [|z t]; [reflexivity|].
  change (last (y :: z :: t) x) with (last (z :: t) x).
  rewrite IH by congruence. cbn [length]. 
  replace (S (S (length t)) - 1) with (S (S (length t) - 1)) by lia.
  reflexivity.
Qed.

Lemma nth_removelast (t : list string) (j : nat) (d : string) :
  j < length t - 1 -> nth j (removelast t) d = nth j t d.
Proof.
  intros H. rewrite removelast_firstn_len, nth_firstn.
  destruct (Nat.ltb_spec j (pred (length t))); [reflexivity | lia].
Qed.

Lemma nth_rot (teams : list string) (m j : nat) (d : string) :
  length teams = S m -> 1 <= m -> j <= m ->
  nth j (rot teams) d = nth (pos m 1 j) teams d.
Proof.
  intros Hlen Hm Hj. destruct teams as [|x t]; [discriminate|].
  cbn [length] in Hlen. injection Hlen as Hlen.
  unfold rot. destruct j as [|[|j]].
  - reflexivity.
  - cbn [nth]. rewrite (last_as_nth t x d) by (destruct t; cbn in *; [lia|congruence]).
    unfold pos. cbn [Nat.eqb Nat.ltb Nat.leb].
    replace (1 + m - 1) with (S (length t - 1)) by lia. reflexivity.
  - cbn [nth]. rewrite nth_removelast by lia.
    unfold pos. cbn [Nat.eqb Nat.ltb Nat.leb]. reflexivity.
Qed.

Lemma pos_step (m r j : nat) :
  r < m -> j <= m -> pos m r (pos m 1 j) = pos m (S r) j.
Proof. intros. pos_cases; lia. Qed.

Lemma pos_le (m r j : nat) : r <= m -> j <= m -> pos m r j <= m.
Proof. intros. pos_cases; lia. Qed.

Lemma pos_0_r (m j : nat) : pos m 0 j = j.
Proof. pos_cases; lia. Qed.

Lemma nth_iter_rot (teams : list string) (m : nat) (d : string) :
  length teams = S m -> 1 <= m ->
  forall r j, r <= m -> j <= m ->
    nth j (Nat.iter r rot teams) d = nth (pos m r j) teams d.
Proof.
  intros Hlen Hm. induction r as [|r IH]; intros j Hr Hj.
  - now rewrite pos_0_r.
  - cbn [Nat.iter nat_rect]. fold (Nat.iter r rot teams).
    rewrite (nth_rot _ m) by (rewrite ?length_iter_rot; lia).
    rewrite IH by (try apply pos_le; lia).
    now rewrite pos_step by lia.
Qed.

Lemma pos_meet (h r i : nat) :
  r < 2 * h - 1 -> i < h ->
  meet (2 * h - 1) r (pos (2 * h - 1) r i) (pos (2 * h - 1) r (2 * h - 1 - i)).
Proof. intros. unfold meet. pos_cases; lia. Qed.

Lemma meet_sym (m r a b : nat) : meet m r a b -> meet m r b a.
Proof. unfold meet. lia. Qed.

(** The number of positions besides the fixed one is odd, so two teams meet
    in one round only. *)
Lemma meet_round (h r r' a b : nat) :
  r < 2 * h - 1 -> r' < 2 * h - 1 ->
  meet (2 * h - 1) r a b -> meet (2 * h - 1) r' a b -> r = r'.
Proof. unfold meet. lia. Qed.

Lemma pos_inj (m r j j' : nat) :
  r < m -> j <= m -> j' <= m -> pos m r j = pos m r j' -> j = j'.
Proof. intros. pos_cases; lia. Qed.

Lemma norm_eq (a b a' b' : nat) :
  norm (a, b) = norm (a', b') -> (a = a' /\ b = b') \/ (a = b' /\ b = a').
Proof. unfold norm. cbn [fst snd]. intros E. injection E as E1 E2. lia. Qed.

Lemma fixture_at_inj (h r r' i i' : nat) :
  r < 2 * h - 1 -> r' < 2 * h - 1 -> i < h -> i' < h ->
  norm (fixture_at h r i) = norm (fixture_at h r' i') -> r = r' /\ i = i'.
Proof.
  intros Hr Hr' Hi Hi' E. unfold fixture_at in E.
  pose proof (pos_meet h r i Hr Hi) as M.
  pose proof (pos_meet h r' i' Hr' Hi') as M'.
  apply norm_eq in E.
  assert (r = r') as <-.
  { destruct E as [[E1 E2]|[E1 E2]]; rewrite <- E1, <- E2 in M'.
    - exact (meet_round h r r' _ _ Hr Hr' M M').
    - exact (meet_round h r r' _ _ Hr Hr' M (meet_sym _ _ _ _ M')). }
  split; [reflexivity|].
  destruct E as [[E1 _]|[E1 _]]; apply pos_inj in E1; lia.
Qed.

Lemma fixture_at_range (h r i : nat) :
  r < 2 * h - 1 -> i < h ->
  fst (fixture_at h r i) < 2 * h /\ snd (fixture_at h r i) < 2 * h
  /\ fst (fixture_at h r i) <> snd (fixture_at h r i).
Proof.
  intros Hr Hi. destruct (pos_meet h r i Hr Hi) as (Hne & Ha & Hb & _).
  unfold fixture_at. cbn [fst snd]. lia.
Qed.

Lemma NoDup_map_flat_map {A B C : Type} (f : B -> C) (g : A -> list B) :
  forall l : list A,
    NoDup l ->
    (forall x, In x l -> NoDup (map f (g x))) ->
    (forall x y b c, In x l -> In y l -> In b (g x) -> In c (g y) ->
                     f b = f c -> x = y) ->
    NoDup (map f (flat_map g l)).
Proof.
  induction l as [|a l IH]; intros Hl Hg Hinj; cbn [flat_map map].
  - constructor.
  - inversion_clear Hl as [|? ? Ha Hl']. rewrite map_app. apply NoDup_app.
    + apply Hg. now left.
    + apply IH; auto.
      * intros x Hx. apply Hg. now right.
      * intros x y b c Hx Hy. apply Hinj; now right.
    + intros z Hz Hz'. apply in_map_iff in Hz as (b & <- & Hb).
      apply in_map_iff in Hz' as (c & Hcb & Hc).
      apply in_flat_map in Hc as (y & Hy & Hc).
      assert (a = y) as -> by (eapply Hinj; eauto; [now left | now right]).
      contradiction.
Qed.

Lemma in_index_pairs (h : nat) (p : nat * nat) :
  In p (index_pairs h) <->
  exists r i, r < 2 * h - 1 /\ i < h /\ p = fixture_at h r i.
Proof.
  unfold index_pairs. rewrite in_flat_map. split.
  - intros (r & Hr & Hp). apply in_map_iff in Hp as (i & <- & Hi).
    apply in_seq in Hr, Hi. exists r, i. repeat split; lia.
  - intros (r & i & Hr & Hi & ->). exists r. split.
    + apply in_seq. lia.
    + apply in_map, in_seq. lia.
Qed.

Lemma index_pairs_range (h : nat) (p : nat * nat) :
  In p (index_pairs h) -> fst p < 2 * h /\ snd p < 2 * h /\ fst p <> snd p.
Proof.
  intros Hp. apply in_index_pairs in Hp as (r & i & Hr & Hi & ->).
  now apply fixture_at_range.
Qed.

(** No two fixtures of a schedule are between the same two indices. *)
Lemma NoDup_index_pairs (h : nat) : NoDup (map norm (index_pairs h)).
Proof.
  unfold index_pairs. apply NoDup_map_flat_map.
  - apply seq_NoDup.
  - intros r Hr. apply in_seq in Hr. rewrite map_map.
    apply NoDup_map_NoDup_ForallPairs; [|apply seq_NoDup].
    intros i i' Hi Hi' E. apply in_seq in Hi, Hi'.
    apply fixture_at_inj in E; lia.
  - intros r r' b c Hr Hr' Hb Hc E. apply in_seq in Hr, Hr'.
    apply in_map_iff in Hb as (i & <- & Hi), Hc as (i' & <- & Hi').
    apply in_seq in Hi, Hi'. apply fixture_at_inj in E; lia.
Qed.

Lemma length_flat_map_const {A B : Type} (g : A -> list B) (k : nat) :
  forall l : list A,
    (forall x, In x l -> length (g x) = k) ->
    length (flat_map g l) = length l * k.
Proof.
  induction l as [|a l IH]; intros H; cbn [flat_map length]; [reflexivity|].
  rewrite length_app, H, IH by (try intros x Hx; try apply H; cbn; auto).
  lia.
Qed.

Lemma length_index_pairs (h : nat) : length (index_pairs h) = (2 * h - 1) * h.
Proof.
  unfold index_pairs. rewrite (length_flat_map_const _ h), length_seq; auto.
  intros r _. now rewrite length_map, length_seq.
Qed.

Lemma in_all_pairs (n x y : nat) : In (x, y) (all_pairs n) <-> x < y < n.
Proof.
  unfold all_pairs. rewrite in_flat_map. split.
  - intros (y' & Hy & Hp). apply in_map_iff in Hp as (x' & E & Hx).
    injection E as -> ->. apply in_seq in Hy, Hx. lia.
  - intros H. exists y. split; [apply in_seq; lia|].
    apply in_map_iff. exists x. split; [reflexivity | apply in_seq; lia].
Qed.

Lemma NoDup_all_pairs (n : nat) : NoDup (all_pairs n).
Proof.
  unfold all_pairs. rewrite <- (map_id (flat_map _ _)).
  apply NoDup_map_flat_map.
  - apply seq_NoDup.
  - intros y _. rewrite map_id.
    apply NoDup_map_NoDup_ForallPairs; [|apply seq_NoDup].
    intros x x' _ _ E. now injection E.
  - intros y y' b c _ _ Hb Hc E. cbn in E. subst c.
    apply in_map_iff in Hb as (x & <- & _), Hc as (x' & E & _).
    now injection E.
Qed.

Lemma length_all_pairs (n : nat) : 2 * length (all_pairs n) = n * (n - 1).
Proof.
  unfold all_pairs. induction n as [|n IH]; [reflexivity|].
  rewrite seq_S, flat_map_app, length_app. cbn [flat_map Nat.add].
  rewrite app_nil_r, length_map, length_seq. nia.
Qed.

Lemma length_all_pairs_div (n : nat) : length (all_pairs n) = n * (n - 1) / 2.
Proof.
  rewrite <- length_all_pairs, Nat.mul_comm. symmetry. now apply Nat.div_mul.
Qed.

Lemma NoDup_map_filter {A B : Type} (f : A -> B) (p : A -> bool) :
  forall l : list A, NoDup (map f l) -> NoDup (map f (filter p l)).
Proof.
  induction l as [|a l IH]; cbn [map filter]; intros H; [constructor|].
  inversion_clear H as [|? ? Ha Hl]. destruct (p a); cbn [map]; auto.
  constructor; auto. intros Hin. apply Ha.
  apply in_map_iff in Hin as (b & E & Hb). apply filter_In in Hb as [Hb _].
  apply in_map_iff. now exists b.
Qed.

(** Every pair of indices meets in a schedule over [2 * h] positions. *)
Lemma index_pairs_cover (h x y : nat) :
  x < y < 2 * h -> In (x, y) (map norm (index_pairs h)).
Proof.
  intros H. apply (NoDup_length_incl (NoDup_index_pairs h) (l' := all_pairs (2 * h))).
  - rewrite length_map, length_index_pairs.
    pose proof (length_all_pairs (2 * h)) as E. nia.
  - intros q Hq. apply in_map_iff in Hq as (p & <- & Hp).
    apply index_pairs_range in Hp as (Ha & Hb & Hne).
    apply in_all_pairs. unfold norm. cbn [fst snd]. lia.
  - now apply in_all_pairs.
Qed.

(** The fixtures that survive the filter are, up to order, the pairs of real
    indices. *)
Lemma real_index_pairs (h k : nat) :
  k <= 2 * h ->
  Permutation (map norm (filter (both_lt k) (index_pairs h))) (all_pairs k).
Proof.
  intros Hk. apply NoDup_Permutation.
  - apply NoDup_map_filter, NoDup_index_pairs.
  - apply NoDup_all_pairs.
  - intros [x y]. rewrite in_all_pairs, in_map_iff. split.
    + intros (p & E & Hp). apply filter_In in Hp as [Hp Hlt].
      apply index_pairs_range in Hp as (_ & _ & Hne).
      unfold both_lt in Hlt. apply andb_prop in Hlt as [H1 H2].
      apply Nat.ltb_lt in H1, H2. unfold norm in E. injection E as <- <-. lia.
    + intros Hxy. assert (Hc : In (x, y) (map norm (index_pairs h)))
        by (apply index_pairs_cover; lia).
      apply in_map_iff in Hc as (p & E & Hp). exists p. split; [exact E|].
      apply filter_In. split; [exact Hp|].
      unfold norm in E. injection E as E1 E2. unfold both_lt.
      apply andb_true_intro. split; apply Nat.ltb_lt; lia.
Qed.

Lemma filter_none {A : Type} (g : A -> bool) (l : list A) :
  (forall a, In a l -> g a = false) -> filter g l = [].
Proof.
  induction l as [|a l IH]; intros H; cbn [filter]; [reflexivity|].
  rewrite (H a) by now left. apply IH. intros b Hb. apply H. now right.
Qed.

Lemma pair_eqb_eq (p q : nat * nat) : pair_eqb p q = true <-> p = q.
Proof.
  destruct p as [a b], q as [c d]. unfold pair_eqb. cbn [fst snd].
  rewrite andb_true_iff, !Nat.eqb_eq. split; [intros []|intros [=]]; subst; auto.
Qed.

(** In a list without two elements of the same image, each image is hit
    once. *)
Lemma filter_image_once {A : Type} (f : A -> nat * nat) (q : nat * nat) :
  forall l : list A,
    NoDup (map f l) -> In q (map f l) ->
    length (filter (fun a => pair_eqb (f a) q) l) = 1.
Proof.
  induction l as [|a l IH]; cbn [map filter]; intros Hnd Hin; [contradiction|].
  inversion_clear Hnd as [|? ? Ha Hl].
  destruct (pair_eqb (f a) q) eqn:E.
  - apply pair_eqb_eq in E. subst q. cbn [length]. f_equal.
    rewrite filter_none; [reflexivity|]. intros b Hb.
    destruct (pair_eqb (f b) (f a)) eqn:E'; [|reflexivity].
    apply pair_eqb_eq in E'. exfalso. apply Ha. rewrite <- E'. now apply in_map.
  - apply IH; auto. destruct Hin as [Hq|Hq]; [|exact Hq].
    subst q. assert (pair_eqb (f a) (f a) = true) by now apply pair_eqb_eq.
    congruence.
Qed.

End SchedulerIndices.

Section SchedulerTeams.

Import Scheduler.

Lemma flat_map_filter_map {A B C : Type} (p : C -> bool) (f : B -> C)
    (g : A -> list B) (l : list A) :
  flat_map (fun r => filter p (map f (g r))) l = filter p (map f (flat_map g l)).
Proof.
  induction l as [|a l IH]; cbn [flat_map map filter]; [reflexivity|].
  now rewrite map_app, filter_app, IH.
Qed.

Lemma flat_map_ext_seq {B : Type} (f g : nat -> list B) (n : nat) :
  (forall r, r < n -> f r = g r) -> flat_map f (seq 0 n) = flat_map g (seq 0 n).
Proof.
  intros H. rewrite !flat_map_concat_map. f_equal. apply map_ext_in.
  intros r Hr. apply in_seq in Hr. apply H. lia.
Qed.

(** The schedule of a list of [2 * h] teams, read off the index pairs. *)
Lemma schedule_of_index (teams : list string) (h : nat) :
  length teams = 2 * h ->
  schedule_of teams = filter keep (map (teams_at teams) (index_pairs h)).
Proof.
  intros Hlen. unfold schedule_of, index_pairs. rewrite Hlen.
  replace (2 * h / 2) with h by (rewrite Nat.mul_comm, Nat.div_mul; lia).
  rewrite <- flat_map_filter_map. apply flat_map_ext_seq. intros r Hr.
  unfold round_pairs. f_equal. rewrite map_map. apply map_ext_in.
  intros i Hi. apply in_seq in Hi. unfold teams_at, fixture_at. cbn [fst snd].
  rewrite !(nth_iter_rot teams (2 * h - 1)) by lia. reflexivity.
Qed.

Lemma in_schedule_of_keep (teams : list string) (p : string * string) :
  In p (schedule_of teams) -> keep p = true.
Proof.
  unfold schedule_of. rewrite in_flat_map. intros (r & _ & Hp).
  unfold round_pairs in Hp. now apply filter_In in Hp.
Qed.

Lemma keep_spec (p : string * string) :
  keep p = true <-> fst p <> BYE /\ snd p <> BYE.
Proof.
  unfold keep. rewrite andb_true_iff, !negb_true_iff, !String.eqb_neq.
  reflexivity.
Qed.

(** In the padded list of identifiers that are not the placeholder, the
    placeholder sits exactly at the indices past the real teams. *)
Lemma nth_padded_bye (team_ids : list string) (x : nat) :
  ~ In BYE team_ids ->
  String.eqb (nth x (padded team_ids) BYE) BYE = negb (x <? length team_ids).
Proof.
  intros Hb. destruct (Nat.ltb_spec x (length team_ids)) as [Hx|Hx]; cbn [negb].
  - apply String.eqb_neq. intros E. apply Hb. rewrite <- E.
    unfold padded. destruct (Nat.odd _); [rewrite app_nth1 by exact Hx|];
      now apply nth_In.
  - apply String.eqb_eq. unfold padded. destruct (Nat.odd _).
    + rewrite app_nth2 by exact Hx.
      destruct (x - length team_ids) as [|[|j]]; reflexivity.
    + now apply nth_overflow.
Qed.

Lemma nth_padded_real (team_ids : list string) (x : nat) :
  x < length team_ids -> nth x (padded team_ids) BYE = nth x team_ids BYE.
Proof.
  intros Hx. unfold padded. destruct (Nat.odd _); [|reflexivity].
  now apply app_nth1.
Qed.

Lemma keep_teams_at (team_ids : list string) (p : nat * nat) :
  ~ In BYE team_ids ->
  keep (teams_at (padded team_ids) p) = both_lt (length team_ids) p.
Proof.
  intros Hb. unfold keep, teams_at, both_lt. cbn [fst snd].
  now rewrite !nth_padded_bye, !negb_involutive by exact Hb.
Qed.

(** The output on identifiers that are not the placeholder: the fixtures
    between real indices, in schedule order. *)
Lemma schedule_of_real (team_ids : list string) (h : nat) :
  ~ In BYE team_ids -> length (padded team_ids) = 2 * h ->
  schedule_of (padded team_ids)
  = map (teams_at (padded team_ids))
        (filter (both_lt (length team_ids)) (index_pairs h)).
Proof.
  intros Hb Hlen. rewrite (schedule_of_index _ h Hlen), filter_map_swap.
  f_equal. apply filter_ext. intros p. now apply keep_teams_at.
Qed.

Lemma length_padded_ge (team_ids : list string) :
  length team_ids <= length (padded team_ids).
Proof.
  unfold padded. destruct (Nat.odd _); [rewrite length_app|]; lia.
Qed.

Lemma is_fixture_teams_at (team_ids : list string) (x y : nat) (p : nat * nat) :
  NoDup team_ids -> x < length team_ids -> y < length team_ids -> x <> y ->
  both_lt (length team_ids) p = true ->
  is_fixture (nth x team_ids BYE) (nth y team_ids BYE)
    (teams_at (padded team_ids) p)
  = pair_eqb (norm p) (norm (x, y)).
Proof.
  intros Hnd Hx Hy Hxy Hp. unfold both_lt in Hp.
  apply andb_prop in Hp as [H1 H2]. apply Nat.ltb_lt in H1, H2.
  destruct p as [a b]. cbn [fst snd] in *.
  pose proof (proj1 (NoDup_nth team_ids BYE) Hnd) as Hinj.
  unfold is_fixture, teams_at, pair_eqb, norm. cbn [fst snd].
  rewrite !nth_padded_real by assumption.
  apply eq_true_iff_eq.
  rewrite orb_true_iff, !andb_true_iff, !String.eqb_eq, !Nat.eqb_eq.
  split.
  - intros [[E1 E2]|[E1 E2]]; apply Hinj in E1, E2; auto; lia.
  - intros [E1 E2].
    assert ((a = x /\ b = y) \/ (a = y /\ b = x)) as [[-> ->]|[-> ->]] by lia;
      auto.
Qed.

End SchedulerTeams.

Section SchedulerClaims.

Import Scheduler.

(** C1 (as amended): for every sequence of n >= 2 distinct team identifiers,
    none of which is the string "BYE", [round_robin_pairings] returns exactly
    n * (n - 1) / 2 pairs, every unordered pair of distinct input identifiers
    is the fixture of exactly one of them, and no returned pair contains the
    placeholder. *)
Theorem round_robin_pairings_complete (team_ids : list string) :
  2 <= length team_ids -> NoDup team_ids -> ~ In BYE team_ids ->
  exists out,
    round_robin_pairings team_ids = Some out
    /\ length out = length team_ids * (length team_ids - 1) / 2
    /\ (forall a b, In a team_ids -> In b team_ids -> a <> b ->
                    fixture_count a b out = 1)
    /\ (forall p, In p out -> fst p <> BYE /\ snd p <> BYE).
Proof.
  intros _ Hnd Hb. exists (schedule_of (padded team_ids)).
  split; [apply round_robin_pairings_closed|].
  pose proof (length_padded_even team_ids) as Hev.
  apply Nat.even_spec in Hev. destruct Hev as [h Hh].
  pose proof (length_padded_ge team_ids) as Hk. rewrite Hh in Hk.
  pose proof (real_index_pairs h (length team_ids) Hk) as Hperm.
  split; [|split].
  - rewrite (schedule_of_real _ h Hb Hh), length_map.
    rewrite <- (length_map norm), (Permutation_length Hperm).
    apply length_all_pairs_div.
  - intros a b Ha Hb' Hab.
    destruct (In_nth _ _ BYE Ha) as (x & Hx & <-).
    destruct (In_nth _ _ BYE Hb') as (y & Hy & <-).
    assert (Hxy : x <> y) by congruence.
    unfold fixture_count. rewrite (schedule_of_real _ h Hb Hh).
    rewrite filter_map_swap, length_map.
    rewrite (filter_ext_in _ (fun p => pair_eqb (norm p) (norm (x, y)))).
    + apply filter_image_once.
      * apply NoDup_map_filter, NoDup_index_pairs.
      * apply (Permutation_in _ (Permutation_sym Hperm)).
        unfold norm. cbn [fst snd]. apply in_all_pairs. lia.
    + intros p Hp. apply filter_In in Hp as [_ Hp].
      now apply is_fixture_teams_at.
  - intros p Hp. now apply keep_spec, in_schedule_of_keep with (padded team_ids).
Qed.

Lemma round_robin_pairings_complete_witness :
  exists out,
    round_robin_pairings ["A"; "B"; "C"] = Some out
    /\ length out = 3 * (3 - 1) / 2
    /\ (forall a b, In a ["A"; "B"; "C"] -> In b ["A"; "B"; "C"] -> a <> b ->
                    fixture_count a b out = 1)
    /\ (forall p, In p out -> fst p <> BYE /\ snd p <> BYE).
Proof.
  apply (round_robin_pairings_complete ["A"; "B"; "C"]).
  - cbn. lia.
  - repeat constructor; cbn; intuition discriminate.
  - cbn. intuition discriminate.
Defined.

(** C1 as stated fails when an identifier is the string "BYE": of the two
    distinct teams "BYE" and "A" the schedule is empty. *)
Lemma round_robin_pairings_bye_team_unscheduled :
  2 <= length ["BYE"; "A"] /\ NoDup ["BYE"; "A"]
  /\ round_robin_pairings ["BYE"; "A"] = Some []
  /\ ~ (exists out,
          round_robin_pairings ["BYE"; "A"] = Some out
          /\ length out = 2 * (2 - 1) / 2
          /\ fixture_count "BYE" "A" out = 1).
Proof.
  split; [cbn; lia|]. split.
  - repeat constructor; cbn; intuition discriminate.
  - split; [reflexivity|].
    intros (out & E & Hlen & _). cbv in E. injection E as <-. discriminate.
Qed.

(** C9: when the string "BYE" is one of the team identifiers, the function
    still returns, no returned pair contains "BYE", and so the team "BYE" has
    no fixture with any team: the pair of "BYE" and another input identifier
    occurs zero times, not once. *)
Theorem round_robin_pairings_bye_identifier (team_ids : list string) :
  In BYE team_ids ->
  exists out,
    round_robin_pairings team_ids = Some out
    /\ (forall p, In p out -> fst p <> BYE /\ snd p <> BYE)
    /\ (forall a, In a team_ids ->
                  fixture_count a BYE out = 0 /\ fixture_count BYE a out = 0).
Proof.
  intros _. exists (schedule_of (padded team_ids)).
  split; [apply round_robin_pairings_closed|].
  assert (Hk : forall p, In p (schedule_of (padded team_ids)) ->
                         fst p <> BYE /\ snd p <> BYE).
  { intros p Hp. now apply keep_spec, in_schedule_of_keep with (padded team_ids). }
  split; [exact Hk|].
  intros a _. unfold fixture_count.
  split; (rewrite filter_none; [reflexivity|]); intros p Hp;
    destruct (Hk p Hp) as [H1 H2]; unfold is_fixture;
    apply String.eqb_neq in H1, H2; rewrite H1, H2;
    now rewrite ?andb_false_r, ?andb_false_l.
Qed.

Lemma round_robin_pairings_bye_identifier_witness :
  exists out,
    round_robin_pairings ["A"; "BYE"; "C"; "D"] = Some out
    /\ (forall p, In p out -> fst p <> BYE /\ snd p <> BYE)
    /\ (forall a, In a ["A"; "BYE"; "C"; "D"] ->
                  fixture_count a BYE out = 0 /\ fixture_count BYE a out = 0).
Proof.
  apply (round_robin_pairings_bye_identifier ["A"; "BYE"; "C"; "D"]).
  cbn. auto.
Defined.

End SchedulerClaims.

(** * Properties of the standings computation *)

Section StandingsRows.

Import Schemas Standings.
Local Open Scope Z_scope.

Ltac score_cases :=
  repeat match goal with
  | |- context [?x >? ?y] => destruct (Z.gtb_spec x y)
  | |- context [?x <? ?y] => destruct (Z.ltb_spec x y)
  | |- context [?x =? ?y] => destruct (Z.eqb_spec x y)
  end.

Lemma dict_update_steps (steps : list (string * (row -> row))) :
  forall tm : team_map,
    fold_left (fun tm s => dict_update tm (fst s) (snd s)) steps tm
    = map (fun e => (fst e, run_on (fst e) steps (snd e))) tm.
Proof.
  induction steps as [|[k f] steps IH]; intros tm; cbn [fold_left fst snd].
  - rewrite <- (map_id tm) at 1. apply map_ext. now intros [].
  - rewrite IH. unfold dict_update. rewrite map_map. apply map_ext.
    intros [k' r]. cbn [fst snd run_on fold_left].
    destruct (String.eqb k' k); reflexivity.
Qed.

Lemma record_result_steps (tm : team_map) (m : Match) :
  record_result tm m
  = fold_left (fun tm s => dict_update tm (fst s) (snd s)) (assignments m) tm.
Proof.
  unfold record_result, assignments. rewrite fold_left_app.
  destruct (_ >? _); [|destruct (_ <? _)]; reflexivity.
Qed.

Lemma run_on_hit (k k' : string) (f : row -> row) steps (r : row) :
  String.eqb k k' = true -> run_on k ((k', f) :: steps) r = run_on k steps (f r).
Proof. intros E. unfold run_on. cbn [fold_left fst snd]. now rewrite E. Qed.

Lemma run_on_miss (k k' : string) (f : row -> row) steps (r : row) :
  String.eqb k k' = false -> run_on k ((k', f) :: steps) r = run_on k steps r.
Proof. intros E. unfold run_on. cbn [fold_left fst snd]. now rewrite E. Qed.

Ltac run_steps :=
  repeat first [ rewrite run_on_hit by assumption
               | rewrite run_on_miss by assumption ].

Lemma run_on_assignments (m : Match) (k : string) (r : row) :
  run_on k (assignments m) r = effect m k r.
Proof.
  unfold assignments, effect, self_part, home_part, away_part.
  generalize (score (home_score m)) (score (away_score m)). intros hs as_.
  destruct r as [tid nm p w d l f a g pts].
  destruct (String.eqb k (home_team_id m)) eqn:Eh,
           (String.eqb k (away_team_id m)) eqn:Ea;
    destruct (Z.gtb_spec hs as_), (Z.ltb_spec hs as_), (Z.eqb_spec hs as_);
    try lia; cbn [app]; run_steps;
    cbv [run_on fold_left add_played add_won add_drawn add_lost add_gf add_ga
         add_points set_gd team_id name played won drawn lost gf ga gd points];
    try reflexivity; f_equal; lia.
Qed.

(** The loop body, row by row. *)
Lemma record_result_effect (tm : team_map) (m : Match) :
  record_result tm m = map (fun e => (fst e, effect m (fst e) (snd e))) tm.
Proof.
  rewrite record_result_steps, dict_update_steps. apply map_ext.
  intros e. now rewrite run_on_assignments.
Qed.

Lemma process_match_effect (tm : team_map) (m : Match) :
  process_match tm m
  = if resolves tm m
    then map (fun e => (fst e, effect m (fst e) (snd e))) tm
    else tm.
Proof. unfold process_match. now rewrite record_result_effect. Qed.

Lemma process_match_keys (tm : team_map) (m : Match) :
  map fst (process_match tm m) = map fst tm.
Proof.
  rewrite process_match_effect. destruct (resolves tm m); [|reflexivity].
  rewrite map_map. reflexivity.
Qed.

Lemma dict_get_map (g : string -> row -> row) (tm : team_map) (k : string) :
  dict_get (map (fun e => (fst e, g (fst e) (snd e))) tm) k
  = option_map (g k) (dict_get tm k).
Proof.
  induction tm as [|[k' r] tm IH]; [reflexivity|]. cbn [map fst snd dict_get].
  destruct (String.eqb_spec k' k) as [->|]; [reflexivity | exact IH].
Qed.

Lemma dict_get_in_keys (tm : team_map) (k : string) :
  dict_get tm k <> None <-> In k (map fst tm).
Proof.
  induction tm as [|[k' r] tm IH]; cbn [dict_get map fst In].
  - split; [congruence | contradiction].
  - destruct (String.eqb_spec k' k) as [->|Hne].
    + split; [now left | congruence].
    + rewrite IH. split; [now right | now intros [|]].
Qed.

Lemma resolves_true (tm : team_map) (m : Match) :
  resolves tm m = true <->
  In (home_team_id m) (map fst tm) /\ In (away_team_id m) (map fst tm).
Proof.
  rewrite <- !dict_get_in_keys. unfold resolves.
  destruct (dict_get tm (home_team_id m)), (dict_get tm (away_team_id m));
    split; intros H; try discriminate; try reflexivity;
    try (split; discriminate); destruct H; congruence.
Qed.

Lemma resolves_keys (tm tm' : team_map) (m : Match) :
  map fst tm = map fst tm' -> resolves tm m = resolves tm' m.
Proof.
  intros E. apply eq_true_iff_eq. now rewrite !resolves_true, E.
Qed.

Lemma fold_process_keys (ms : list Match) (tm : team_map) :
  map fst (fold_left process_match ms tm) = map fst tm.
Proof.
  revert tm. induction ms as [|m ms IH]; intros tm; cbn [fold_left];
    [reflexivity|]. now rewrite IH, process_match_keys.
Qed.

End StandingsRows.

Section StandingsTable.

Import Schemas Standings.
Local Open Scope Z_scope.

Lemma dict_set_in_keys (tm : team_map) (k : string) (v : row) (k' : string) :
  In k' (map fst (dict_set tm k v)) <-> k' = k \/ In k' (map fst tm).
Proof.
  induction tm as [|[k0 r] tm IH]; cbn [dict_set map fst In].
  - intuition.
  - destruct (String.eqb_spec k0 k) as [->|Hne]; cbn [map fst In].
    + intuition.
    + rewrite IH. intuition.
Qed.

Lemma dict_set_NoDup (tm : team_map) (k : string) (v : row) :
  NoDup (map fst tm) -> NoDup (map fst (dict_set tm k v)).
Proof.
  induction tm as [|[k0 r] tm IH]; cbn [dict_set map fst]; intros H.
  - repeat constructor. intros [].
  - inversion_clear H as [|? ? Hk0 Htm].
    destruct (String.eqb_spec k0 k) as [->|Hne]; cbn [map fst].
    + now constructor.
    + constructor; [|now apply IH].
      rewrite dict_set_in_keys. intros [E|Hin]; [congruence | contradiction].
Qed.

Lemma dict_set_Forall (P : row -> Prop) (tm : team_map) (k : string) (v : row) :
  P v -> Forall P (map snd tm) -> Forall P (map snd (dict_set tm k v)).
Proof.
  intros Hv. induction tm as [|[k0 r] tm IH]; cbn [dict_set map snd]; intros H.
  - now repeat constructor.
  - inversion_clear H as [|? ? Hr Htm].
    destruct (String.eqb k0 k); cbn [map snd]; constructor; auto.
Qed.

(** What holds of the table the dict comprehension builds from any start. *)
Lemma init_fold (P : row -> Prop) (team_docs : list team_doc) :
  (forall t, P (initial_row t)) ->
  forall tm : team_map,
    NoDup (map fst tm) -> Forall P (map snd tm) ->
    let tm' := fold_left (fun tm t => dict_set tm (doc_id t) (initial_row t))
                 team_docs tm in
    NoDup (map fst tm') /\ Forall P (map snd tm')
    /\ (forall k, In k (map fst tm') <->
                  In k (map fst tm) \/ In k (map doc_id team_docs)).
Proof.
  intros HP. induction team_docs as [|t team_docs IH]; intros tm Hnd Hall;
    cbn [fold_left map In].
  - repeat split; auto. now intros [|[]].
  - destruct (IH (dict_set tm (doc_id t) (initial_row t))) as (H1 & H2 & H3).
    + now apply dict_set_NoDup.
    + now apply dict_set_Forall.
    + repeat split; auto; rewrite H3, dict_set_in_keys; intuition.
Qed.

Lemma init_table_NoDup (team_docs : list team_doc) :
  NoDup (map fst (init_table team_docs)).
Proof.
  apply (init_fold (fun _ => True) team_docs (fun _ => I) []); constructor.
Qed.

Lemma init_table_keys (team_docs : list team_doc) (k : string) :
  In k (map fst (init_table team_docs)) <-> In k (map doc_id team_docs).
Proof.
  destruct (init_fold (fun _ => True) team_docs (fun _ => I) []) as (_ & _ & H);
    [constructor | constructor |].
  unfold init_table. rewrite H. cbn [map In]. tauto.
Qed.

Lemma init_table_invariant (team_docs : list team_doc) :
  Forall row_invariant (map snd (init_table team_docs)).
Proof.
  apply (init_fold row_invariant team_docs).
  - intros t. unfold row_invariant. cbn. lia.
  - constructor.
  - constructor.
Qed.

Lemma effect_invariant (m : Match) (k : string) (r : row) :
  row_invariant r -> row_invariant (effect m k r).
Proof.
  unfold row_invariant, effect. intros [Hgd Hpts].
  destruct (String.eqb k (home_team_id m)), (String.eqb k (away_team_id m));
    unfold self_part, home_part, away_part; cbn [gd gf ga points won drawn];
    auto;
    destruct (Z.gtb_spec (score (home_score m)) (score (away_score m))),
      (Z.ltb_spec (score (home_score m)) (score (away_score m))),
      (Z.eqb_spec (score (home_score m)) (score (away_score m))); lia.
Qed.

Lemma process_match_invariant (tm : team_map) (m : Match) :
  Forall row_invariant (map snd tm) ->
  Forall row_invariant (map snd (process_match tm m)).
Proof.
  rewrite process_match_effect. destruct (resolves tm m); [|auto].
  rewrite map_map. cbn [snd]. rewrite !Forall_map. apply Forall_impl.
  intros e. apply effect_invariant.
Qed.

Lemma fold_process_invariant (ms : list Match) (tm : team_map) :
  Forall row_invariant (map snd tm) ->
  Forall row_invariant (map snd (fold_left process_match ms tm)).
Proof.
  revert tm. induction ms as [|m ms IH]; intros tm H; cbn [fold_left]; auto.
  apply IH. now apply process_match_invariant.
Qed.

Lemma insert_desc_perm (x : row) (l : list row) :
  Permutation (insert_desc x l) (x :: l).
Proof.
  induction l as [|y l IH]; cbn [insert_desc]; [reflexivity|].
  destruct (key_ltb (key x) (key y)); [|reflexivity].
  rewrite IH. apply perm_swap.
Qed.

Lemma sort_desc_perm (l : list row) : Permutation (sort_desc l) l.
Proof.
  induction l as [|x l IH]; cbn [sort_desc fold_right]; [reflexivity|].
  fold (sort_desc l). rewrite insert_desc_perm. now constructor.
Qed.

End StandingsTable.

Section StandingsOrder.

Import Schemas Standings.
Local Open Scope Z_scope.

Ltac key_cases :=
  repeat match goal with
  | x : (Z * Z * Z)%type |- _ => destruct x as [[? ?] ?]
  end;
  unfold key_ltb, key_eqb in *;
  repeat match goal with
  | H : _ = true |- _ =>
      rewrite ?orb_true_iff, ?andb_true_iff, ?Z.ltb_lt, ?Z.eqb_eq in H
  | H : _ = false |- _ =>
      rewrite ?orb_false_iff, ?andb_false_iff, ?Z.ltb_ge, ?Z.eqb_neq in H
  end;
  rewrite ?orb_true_iff, ?andb_true_iff, ?orb_false_iff, ?andb_false_iff,
    ?Z.ltb_lt, ?Z.eqb_eq, ?Z.ltb_ge, ?Z.eqb_neq.

Lemma key_ltb_asym (a b : Z * Z * Z) :
  key_ltb a b = true -> key_ltb b a = false.
Proof. intros H. key_cases. lia. Qed.

Lemma key_ge_trans (a b c : Z * Z * Z) :
  key_ltb a b = false -> key_ltb b c = false -> key_ltb a c = false.
Proof. intros H1 H2. key_cases. lia. Qed.

Lemma key_ltb_not_tied (a b k : Z * Z * Z) :
  key_ltb a b = true -> key_eqb a k = true -> key_eqb b k = false.
Proof. intros H1 H2. key_cases. lia. Qed.

Lemma insert_desc_sorted (x : row) (l : list row) :
  StronglySorted key_ge l -> StronglySorted key_ge (insert_desc x l).
Proof.
  induction l as [|y l IH]; cbn [insert_desc]; intros H.
  - repeat constructor.
  - apply StronglySorted_inv in H as [Hl Hy].
    destruct (key_ltb (key x) (key y)) eqn:E.
    + constructor; [now apply IH|].
      apply (Permutation_Forall (Permutation_sym (insert_desc_perm x l))).
      constructor; [|exact Hy]. now apply key_ltb_asym.
    + constructor; [now constructor|].
      constructor; [exact E|].
      revert Hy. apply Forall_impl. intros z Hz.
      unfold key_ge in *. now apply key_ge_trans with (key y).
Qed.

Lemma sort_desc_sorted (l : list row) : StronglySorted key_ge (sort_desc l).
Proof.
  induction l as [|x l IH]; cbn [sort_desc fold_right]; [constructor|].
  now apply insert_desc_sorted.
Qed.

Lemma insert_desc_stable (k : Z * Z * Z) (x : row) (l : list row) :
  filter (tied_with k) (insert_desc x l) = filter (tied_with k) (x :: l).
Proof.
  induction l as [|y l IH]; cbn [insert_desc]; [reflexivity|].
  destruct (key_ltb (key x) (key y)) eqn:E; [|reflexivity].
  cbn [filter] in *. rewrite IH.
  destruct (tied_with k x) eqn:Ex; [|reflexivity].
  unfold tied_with in *. now rewrite (key_ltb_not_tied _ _ _ E Ex).
Qed.

Lemma sort_desc_stable (k : Z * Z * Z) (l : list row) :
  filter (tied_with k) (sort_desc l) = filter (tied_with k) l.
Proof.
  induction l as [|x l IH]; cbn [sort_desc fold_right]; [reflexivity|].
  fold (sort_desc l). rewrite insert_desc_stable. cbn [filter]. now rewrite IH.
Qed.

Lemma StronglySorted_weaken (R R' : row -> row -> Prop) (l : list row) :
  (forall x y, R x y -> R' x y) -> StronglySorted R l -> StronglySorted R' l.
Proof.
  intros H. induction 1 as [|x l _ IH Hx]; constructor; [exact IH|].
  revert Hx. apply Forall_impl. intros y. apply H.
Qed.

(** The order of the sort, in the fields of the rows. *)
Lemma key_ge_fields (x y : row) :
  key_ge x y ->
  points y < points x
  \/ (points y = points x
      /\ (gd y < gd x \/ (gd y = gd x /\ gf y <= gf x))).
Proof.
  unfold key_ge, key, key_ltb.
  rewrite !orb_false_iff, !andb_false_iff, !orb_false_iff, !andb_false_iff,
    !Z.ltb_ge, !Z.eqb_neq.
  lia.
Qed.

End StandingsOrder.

Section StandingsTotals.

Import Schemas Standings.
Local Open Scope Z_scope.

Lemma sum_of_perm (f : row -> Z) (l l' : list row) :
  Permutation l l' -> sum_of f l = sum_of f l'.
Proof.
  induction 1; cbn [sum_of fold_right] in *; unfold sum_of in *; lia.
Qed.

Lemma indicator_absent (h : string) (c : Z) (ks : list string) :
  ~ In h ks ->
  fold_right Z.add 0 (map (fun k => if String.eqb k h then c else 0) ks) = 0.
Proof.
  induction ks as [|k ks IH]; cbn [map fold_right In]; intros H; [reflexivity|].
  destruct (String.eqb_spec k h) as [->|]; [tauto|]. rewrite IH; tauto.
Qed.

(** A key of a dict is the key of one entry. *)
Lemma indicator_present (h : string) (c : Z) (ks : list string) :
  NoDup ks -> In h ks ->
  fold_right Z.add 0 (map (fun k => if String.eqb k h then c else 0) ks) = c.
Proof.
  induction ks as [|k ks IH]; cbn [map fold_right In]; intros Hnd Hin;
    [contradiction|].
  inversion_clear Hnd as [|? ? Hk Hks].
  destruct (String.eqb_spec k h) as [->|Hne].
  - rewrite indicator_absent by assumption. lia.
  - rewrite IH; [lia | assumption | now destruct Hin].
Qed.

Lemma indicator_add (g1 g2 : string -> Z) (ks : list string) :
  fold_right Z.add 0 (map (fun k => g1 k + g2 k) ks)
  = fold_right Z.add 0 (map g1 ks) + fold_right Z.add 0 (map g2 ks).
Proof. induction ks as [|k ks IH]; cbn [map fold_right]; lia. Qed.

Lemma sum_of_effect (f : row -> Z) (g : string -> Z) (m : Match) :
  (forall k r, f (effect m k r) = f r + g k) ->
  forall tm : team_map,
    sum_of f (map snd (map (fun e => (fst e, effect m (fst e) (snd e))) tm))
    = sum_of f (map snd tm) + fold_right Z.add 0 (map g (map fst tm)).
Proof.
  intros H. induction tm as [|[k r] tm IH]; [reflexivity|].
  cbn [map fst snd sum_of fold_right] in *. unfold sum_of in *.
  rewrite IH, H. lia.
Qed.

Lemma won_effect (m : Match) (k : string) (r : row) :
  won (effect m k r)
  = won r
    + ((if String.eqb k (home_team_id m)
        then if score (home_score m) >? score (away_score m) then 1 else 0
        else 0)
       + (if String.eqb k (away_team_id m)
          then if score (home_score m) <? score (away_score m) then 1 else 0
          else 0)).
Proof.
  unfold effect.
  destruct (String.eqb k (home_team_id m)), (String.eqb k (away_team_id m));
    unfold self_part, home_part, away_part; cbn [won];
    destruct (Z.gtb_spec (score (home_score m)) (score (away_score m))),
      (Z.ltb_spec (score (home_score m)) (score (away_score m))),
      (Z.eqb_spec (score (home_score m)) (score (away_score m))); lia.
Qed.

Lemma drawn_effect (m : Match) (k : string) (r : row) :
  drawn (effect m k r)
  = drawn r
    + ((if String.eqb k (home_team_id m)
        then if score (home_score m) =? score (away_score m) then 1 else 0
        else 0)
       + (if String.eqb k (away_team_id m)
          then if score (home_score m) =? score (away_score m) then 1 else 0
          else 0)).
Proof.
  unfold effect.
  destruct (String.eqb k (home_team_id m)), (String.eqb k (away_team_id m));
    unfold self_part, home_part, away_part; cbn [drawn];
    destruct (Z.eqb_spec (score (home_score m)) (score (away_score m))); lia.
Qed.

Lemma process_match_won (tm : team_map) (m : Match) :
  NoDup (map fst tm) ->
  sum_of won (map snd (process_match tm m))
  = sum_of won (map snd tm) + (if resolves tm m && decisive m then 1 else 0).
Proof.
  intros Hnd. rewrite process_match_effect.
  destruct (resolves tm m) eqn:Hres; cbn [andb]; [|lia].
  apply resolves_true in Hres as [Hh Ha].
  rewrite (sum_of_effect won _ m (won_effect m)), indicator_add,
    !indicator_present by assumption.
  unfold decisive.
  destruct (Z.gtb_spec (score (home_score m)) (score (away_score m))),
    (Z.ltb_spec (score (home_score m)) (score (away_score m))),
    (Z.eqb_spec (score (home_score m)) (score (away_score m)));
    cbn [negb]; lia.
Qed.

Lemma process_match_drawn (tm : team_map) (m : Match) :
  NoDup (map fst tm) ->
  sum_of drawn (map snd (process_match tm m))
  = sum_of drawn (map snd tm)
    + (if resolves tm m && negb (decisive m) then 2 else 0).
Proof.
  intros Hnd. rewrite process_match_effect.
  destruct (resolves tm m) eqn:Hres; cbn [andb]; [|lia].
  apply resolves_true in Hres as [Hh Ha].
  rewrite (sum_of_effect drawn _ m (drawn_effect m)), indicator_add,
    !indicator_present by assumption.
  unfold decisive.
  destruct (Z.eqb_spec (score (home_score m)) (score (away_score m)));
    cbn [negb]; lia.
Qed.

Lemma count_matches_cons (p : Match -> bool) (m : Match) (ms : list Match) :
  count_matches p (m :: ms) = (if p m then 1 else 0) + count_matches p ms.
Proof.
  unfold count_matches. cbn [filter]. destruct (p m); cbn [length]; lia.
Qed.

Lemma count_matches_ext (p q : Match -> bool) (ms : list Match) :
  (forall m, p m = q m) -> count_matches p ms = count_matches q ms.
Proof. intros H. unfold count_matches. now rewrite (filter_ext p q H). Qed.

Lemma fold_process_totals (ms : list Match) :
  forall tm : team_map,
    NoDup (map fst tm) ->
    sum_of won (map snd (fold_left process_match ms tm))
    = sum_of won (map snd tm)
      + count_matches (fun m => resolves tm m && decisive m) ms
    /\ sum_of drawn (map snd (fold_left process_match ms tm))
       = sum_of drawn (map snd tm)
         + 2 * count_matches (fun m => resolves tm m && negb (decisive m)) ms.
Proof.
  induction ms as [|m ms IH]; intros tm Hnd; cbn [fold_left].
  - unfold count_matches. cbn. lia.
  - destruct (IH (process_match tm m)) as [Hw Hd].
    + now rewrite process_match_keys.
    + rewrite Hw, Hd, process_match_won, process_match_drawn by assumption.
      rewrite !count_matches_cons.
      rewrite (count_matches_ext (fun m0 => resolves (process_match tm m) m0 && decisive m0)
                 (fun m0 => resolves tm m0 && decisive m0)),
        (count_matches_ext (fun m0 => resolves (process_match tm m) m0 && negb (decisive m0))
                 (fun m0 => resolves tm m0 && negb (decisive m0))).
      * destruct (resolves tm m), (decisive m); cbn [andb negb]; lia.
      * intros m0. f_equal. apply resolves_keys, process_match_keys.
      * intros m0. f_equal. apply resolves_keys, process_match_keys.
Qed.

Lemma init_table_zero (team_docs : list team_doc) :
  sum_of won (map snd (init_table team_docs)) = 0
  /\ sum_of drawn (map snd (init_table team_docs)) = 0.
Proof.
  assert (H : Forall (fun r => won r = 0 /\ drawn r = 0)
                (map snd (init_table team_docs))).
  { apply (init_fold (fun r => won r = 0 /\ drawn r = 0) team_docs).
    - now intros t.
    - constructor.
    - constructor. }
  induction H as [|r l [Hw Hd] _ [IHw IHd]]; [now split|].
  cbn [sum_of fold_right] in *. unfold sum_of in *. lia.
Qed.

End StandingsTotals.

Section StandingsClaims.

Import Schemas Standings.
Local Open Scope Z_scope.

Lemma process_match_home_away (tm : team_map) (m : Match) (hr ar : row) :
  dict_get tm (home_team_id m) = Some hr ->
  dict_get tm (away_team_id m) = Some ar ->
  home_team_id m <> away_team_id m ->
  dict_get (process_match tm m) (home_team_id m) = Some (home_part m hr)
  /\ dict_get (process_match tm m) (away_team_id m) = Some (away_part m ar).
Proof.
  intros Hh Ha Hne. rewrite process_match_effect.
  unfold resolves. rewrite Hh, Ha, !dict_get_map, Hh, Ha.
  unfold effect. rewrite !String.eqb_refl.
  apply String.eqb_neq in Hne. rewrite Hne.
  rewrite String.eqb_sym in Hne. now rewrite Hne.
Qed.

(** C2 (as amended): for every completed match the standings computation
    processes whose home and away identifiers resolve to two different rows,
    [played] grows by 1 in both rows; the home row's goals-for grows by the
    home score and its goals-against by the away score, and symmetrically
    for the away row; a home win adds 1 to [won] and 3 to [points] of the
    home row and 1 to [lost] of the away row; an away win does the same with
    the sides exchanged; equal scores add 1 to [drawn] and 1 to [points] of
    both rows. *)
Theorem process_match_updates (tm : team_map) (m : Match) (hr ar : row) :
  dict_get tm (home_team_id m) = Some hr ->
  dict_get tm (away_team_id m) = Some ar ->
  home_team_id m <> away_team_id m ->
  let hs := score (home_score m) in
  let as_ := score (away_score m) in
  exists hr' ar',
    dict_get (process_match tm m) (home_team_id m) = Some hr'
    /\ dict_get (process_match tm m) (away_team_id m) = Some ar'
    /\ played hr' = played hr + 1 /\ played ar' = played ar + 1
    /\ gf hr' = gf hr + hs /\ ga hr' = ga hr + as_
    /\ gf ar' = gf ar + as_ /\ ga ar' = ga ar + hs
    /\ (hs > as_ ->
        won hr' = won hr + 1 /\ points hr' = points hr + 3
        /\ lost ar' = lost ar + 1)
    /\ (hs < as_ ->
        won ar' = won ar + 1 /\ points ar' = points ar + 3
        /\ lost hr' = lost hr + 1)
    /\ (hs = as_ ->
        drawn hr' = drawn hr + 1 /\ points hr' = points hr + 1
        /\ drawn ar' = drawn ar + 1 /\ points ar' = points ar + 1).
Proof.
  intros Hh Ha Hne hs as_.
  destruct (process_match_home_away tm m hr ar Hh Ha Hne) as [Eh Ea].
  exists (home_part m hr), (away_part m ar).
  split; [exact Eh|]. split; [exact Ea|].
  unfold home_part, away_part.
  cbn [played won drawn lost gf ga points]. fold hs as_.
  destruct (Z.gtb_spec hs as_), (Z.ltb_spec hs as_), (Z.eqb_spec hs as_);
    repeat split; intros; lia.
Qed.

Lemma process_match_updates_witness :
  let tm := init_table [mkTeam "X" (Some "Xs"); mkTeam "Y" (Some "Ys")] in
  let m := mkMatch "t" "X" "Y" None completed (Some 3) (Some 1) in
  exists hr' ar',
    dict_get (process_match tm m) "X" = Some hr'
    /\ dict_get (process_match tm m) "Y" = Some ar'
    /\ played hr' = 0 + 1 /\ played ar' = 0 + 1
    /\ gf hr' = 0 + 3 /\ ga hr' = 0 + 1
    /\ gf ar' = 0 + 1 /\ ga ar' = 0 + 3
    /\ (3 > 1 -> won hr' = 0 + 1 /\ points hr' = 0 + 3 /\ lost ar' = 0 + 1)
    /\ (3 < 1 -> won ar' = 0 + 1 /\ points ar' = 0 + 3 /\ lost hr' = 0 + 1)
    /\ (3 = 1 ->
        drawn hr' = 0 + 1 /\ points hr' = 0 + 1
        /\ drawn ar' = 0 + 1 /\ points ar' = 0 + 1).
Proof.
  intros tm m.
  apply (process_match_updates tm m
           (initial_row (mkTeam "X" (Some "Xs")))
           (initial_row (mkTeam "Y" (Some "Ys")))).
  - vm_compute. reflexivity.
  - vm_compute. reflexivity.
  - discriminate.
Defined.

(** C2 as stated fails for a match of a team against itself: both
    identifiers resolve, to the same row, and [played] grows by 2. *)
Lemma process_match_self_match :
  let tm := init_table [mkTeam "X" (Some "Xs")] in
  let m := mkMatch "t" "X" "X" None completed (Some 2) (Some 1) in
  exists hr hr',
    dict_get tm (home_team_id m) = Some hr
    /\ dict_get tm (away_team_id m) = Some hr
    /\ dict_get (process_match tm m) (home_team_id m) = Some hr'
    /\ played hr' <> played hr + 1
    /\ gf hr' <> gf hr + score (home_score m).
Proof.
  intros tm m. exists (initial_row (mkTeam "X" (Some "Xs"))).
  exists (self_part m (initial_row (mkTeam "X" (Some "Xs")))).
  repeat split; try (vm_compute; reflexivity); vm_compute; discriminate.
Qed.

(** C3: for every team set and every list of completed matches, every row of
    the computed standings satisfies gd = gf - ga and
    points = 3 * won + 1 * drawn. *)
Theorem standings_row_invariant (team_docs : list team_doc) (matches : list Match) :
  Forall (fun r => gd r = gf r - ga r /\ points r = 3 * won r + 1 * drawn r)
    (standings team_docs matches).
Proof.
  unfold standings.
  apply (Permutation_Forall (Permutation_sym (sort_desc_perm _))).
  apply fold_process_invariant, init_table_invariant.
Qed.

(** C4: for every team set and every list of completed matches, the
    standings are the rows of the table in descending lexicographic order of
    (points, goal difference, goals for): of two rows the earlier has more
    points, or as many and a greater goal difference, or as many of both and
    at least as many goals for; and the rows tied on all three keys are in
    the order they had in the table before the sort. *)
Theorem standings_sorted_stable (team_docs : list team_doc) (matches : list Match) :
  StronglySorted
    (fun x y =>
       points y < points x
       \/ (points y = points x
           /\ (gd y < gd x \/ (gd y = gd x /\ gf y <= gf x))))
    (standings team_docs matches)
  /\ Permutation (standings team_docs matches) (table team_docs matches)
  /\ forall p d f : Z,
       filter (fun r => (points r =? p) && (gd r =? d) && (gf r =? f))
         (standings team_docs matches)
       = filter (fun r => (points r =? p) && (gd r =? d) && (gf r =? f))
           (table team_docs matches).
Proof.
  unfold standings. split; [|split].
  - apply (StronglySorted_weaken key_ge); [|apply sort_desc_sorted].
    intros x y. apply key_ge_fields.
  - apply sort_desc_perm.
  - intros p d f. apply (sort_desc_stable (p, d, f)).
Qed.

(** C6: for every team set and match list, appending one completed match
    whose home or away identifier is not the identifier of a team of the set
    leaves the standings as they are without it; the computation raises
    nothing, being a total function. *)
Theorem standings_skips_orphan (team_docs : list team_doc) (matches : list Match)
    (m : Match) :
  ~ In (home_team_id m) (map doc_id team_docs)
  \/ ~ In (away_team_id m) (map doc_id team_docs) ->
  standings team_docs (matches ++ [m]) = standings team_docs matches.
Proof.
  intros H. unfold standings, table. rewrite fold_left_app. cbn [fold_left].
  unfold process_match at 1.
  rewrite (resolves_keys _ (init_table team_docs)) by apply fold_process_keys.
  destruct (resolves (init_table team_docs) m) eqn:E; [|reflexivity].
  apply resolves_true in E as [Hh Ha]. rewrite init_table_keys in Hh, Ha.
  tauto.
Qed.

Lemma standings_skips_orphan_witness :
  let team_docs := [mkTeam "X" (Some "Xs"); mkTeam "Y" (Some "Ys")] in
  let matches := [mkMatch "t" "X" "Y" None completed (Some 3) (Some 1)] in
  let m := mkMatch "t" "X" "Z" None completed (Some 0) (Some 5) in
  standings team_docs (matches ++ [m]) = standings team_docs matches.
Proof.
  intros team_docs matches m. apply (standings_skips_orphan team_docs matches m).
  right. cbn. intros [E|[E|[]]]; discriminate.
Defined.

(** C5 (as amended): for every team set and every list of completed matches,
    the sum of [won] over all rows is the number of decisive matches among
    those whose two identifiers resolve (the others are skipped); the sum of
    [drawn] is twice the number of drawn matches among them, so it is even;
    and a drawn match between two different teams of the set adds 1 to
    [drawn] in the rows of its two sides and in no other row. *)
Theorem standings_won_drawn_totals (team_docs : list team_doc)
    (matches : list Match) :
  sum_of won (standings team_docs matches)
  = count_matches (fun m => counted team_docs m && decisive m) matches
  /\ sum_of drawn (standings team_docs matches)
     = 2 * count_matches (fun m => counted team_docs m && negb (decisive m))
             matches
  /\ Z.even (sum_of drawn (standings team_docs matches)) = true
  /\ forall m : Match,
       counted team_docs m = true -> decisive m = false ->
       home_team_id m <> away_team_id m ->
       forall k : string,
         option_map drawn
           (dict_get (fold_left process_match (matches ++ [m])
                        (init_table team_docs)) k)
         = option_map (fun r => drawn r + (if plays m k then 1 else 0))
             (dict_get (fold_left process_match matches
                          (init_table team_docs)) k).
Proof.
  destruct (fold_process_totals matches (init_table team_docs)
              (init_table_NoDup team_docs)) as [Hw Hd].
  destruct (init_table_zero team_docs) as [Hw0 Hd0].
  unfold standings, table, counted.
  rewrite !(sum_of_perm _ _ _ (sort_desc_perm _)), Hw, Hd, Hw0, Hd0.
  repeat split; try lia.
  - rewrite Z.add_0_l, Z.even_mul. reflexivity.
  - intros m Hc Hdr Hne k. rewrite fold_left_app. cbn [fold_left].
    rewrite process_match_effect.
    rewrite (resolves_keys _ (init_table team_docs)) by apply fold_process_keys.
    rewrite Hc, dict_get_map.
    destruct (dict_get _ k) as [r|]; [|reflexivity]. cbn [option_map].
    rewrite drawn_effect. unfold plays, decisive in *.
    apply negb_false_iff in Hdr. rewrite Hdr.
    destruct (String.eqb_spec k (home_team_id m)),
      (String.eqb_spec k (away_team_id m)); cbn [orb];
      try (f_equal; lia). congruence.
Qed.

Lemma standings_won_drawn_totals_witness :
  let team_docs := [mkTeam "X" (Some "Xs"); mkTeam "Y" (Some "Ys")] in
  let matches := [mkMatch "t" "X" "Y" None completed (Some 3) (Some 1)] in
  let m := mkMatch "t" "Y" "X" None completed (Some 2) (Some 2) in
  option_map drawn
    (dict_get (fold_left process_match (matches ++ [m])
                 (init_table team_docs)) "Y")
  = option_map (fun r => drawn r + (if plays m "Y" then 1 else 0))
      (dict_get (fold_left process_match matches (init_table team_docs)) "Y").
Proof.
  intros team_docs matches m.
  apply (proj2 (proj2 (proj2 (standings_won_drawn_totals team_docs matches))) m).
  - vm_compute. reflexivity.
  - vm_compute. reflexivity.
  - discriminate.
Defined.

(** C5 as stated fails on skipped matches and on a team drawing against
    itself: a decisive match of teams outside the set adds to no [won], and
    the draw of "X" against "X" adds 2 to the one row of "X". *)
Lemma standings_totals_orphan_and_self :
  let team_docs := [mkTeam "X" (Some "Xs")] in
  let orphan := mkMatch "t" "Y" "Z" None completed (Some 1) (Some 0) in
  let self := mkMatch "t" "X" "X" None completed (Some 0) (Some 0) in
  sum_of won (standings team_docs [orphan]) <> count_matches decisive [orphan]
  /\ map drawn (standings team_docs [self]) = [2].
Proof.
  split; vm_compute; [discriminate | reflexivity].
Qed.

(** C10: in the standings computation a missing score counts as 0, the
    match being processed like the one with the score 0 stored; so a
    completed match without both scores, between two different teams of the
    table, is not skipped: it is a 0-0 draw that adds 1 to [played], [drawn]
    and [points] of both rows and nothing to their goals. The computation is
    a total function: nothing is raised. *)
Theorem process_match_missing_scores :
  (forall (tm : team_map) (m : Match),
     process_match tm m = process_match tm (with_default_scores m))
  /\ (forall (tm : team_map) (m : Match) (hr ar : row),
        home_score m = None -> away_score m = None ->
        dict_get tm (home_team_id m) = Some hr ->
        dict_get tm (away_team_id m) = Some ar ->
        home_team_id m <> away_team_id m ->
        exists hr' ar',
          dict_get (process_match tm m) (home_team_id m) = Some hr'
          /\ dict_get (process_match tm m) (away_team_id m) = Some ar'
          /\ played hr' = played hr + 1 /\ played ar' = played ar + 1
          /\ drawn hr' = drawn hr + 1 /\ drawn ar' = drawn ar + 1
          /\ points hr' = points hr + 1 /\ points ar' = points ar + 1
          /\ won hr' = won hr /\ won ar' = won ar
          /\ lost hr' = lost hr /\ lost ar' = lost ar
          /\ gf hr' = gf hr /\ ga hr' = ga hr
          /\ gf ar' = gf ar /\ ga ar' = ga ar).
Proof.
  split.
  - intros tm m. rewrite !process_match_effect. reflexivity.
  - intros tm m hr ar Hhs Has Hh Ha Hne.
    destruct (process_match_home_away tm m hr ar Hh Ha Hne) as [Eh Ea].
    exists (home_part m hr), (away_part m ar).
    split; [exact Eh|]. split; [exact Ea|].
    unfold home_part, away_part. rewrite Hhs, Has.
    cbn [played won drawn lost gf ga points score Z.gtb Z.ltb Z.eqb Z.compare].
    repeat split; lia.
Qed.

Lemma process_match_missing_scores_witness :
  let tm := init_table [mkTeam "X" (Some "Xs"); mkTeam "Y" (Some "Ys")] in
  let m := mkMatch "t" "X" "Y" None completed None None in
  exists hr' ar',
    dict_get (process_match tm m) "X" = Some hr'
    /\ dict_get (process_match tm m) "Y" = Some ar'
    /\ played hr' = 0 + 1 /\ played ar' = 0 + 1
    /\ drawn hr' = 0 + 1 /\ drawn ar' = 0 + 1
    /\ points hr' = 0 + 1 /\ points ar' = 0 + 1
    /\ won hr' = 0 /\ won ar' = 0
    /\ lost hr' = 0 /\ lost ar' = 0
    /\ gf hr' = 0 /\ ga hr' = 0
    /\ gf ar' = 0 /\ ga ar' = 0.
Proof.
  intros tm m.
  apply (proj2 process_match_missing_scores tm m
           (initial_row (mkTeam "X" (Some "Xs")))
           (initial_row (mkTeam "Y" (Some "Ys")))).
  - reflexivity.
  - reflexivity.
  - vm_compute. reflexivity.
  - vm_compute. reflexivity.
  - discriminate.
Defined.

End StandingsClaims.

(** * Properties of the handlers *)

Section HandlersClaims.

Import Schemas Handlers.

Variable ObjectId : Type.
Variable ObjectId_eqb : ObjectId -> ObjectId -> bool.
Variable ObjectId_of_str : string -> option ObjectId.
Variable create_document :
  database ObjectId -> Match -> database ObjectId * option string.

Lemma find_one_update_one {D : Type} (docs : list (ObjectId * D))
    (o : ObjectId) (set : D -> D) :
  find_one ObjectId ObjectId_eqb (update_one ObjectId ObjectId_eqb docs o set) o
  = option_map set (find_one ObjectId ObjectId_eqb docs o).
Proof.
  induction docs as [|[o' d] docs IH]; [reflexivity|].
  cbn [update_one find_one].
  destruct (ObjectId_eqb o' o) eqn:E; cbn [find_one]; rewrite E;
    [reflexivity | exact IH].
Qed.

(** C7: for every schedule-generation request on an existing tournament
    whose team list has fewer than 2 teams, the handler raises the client
    error 400 and the database, so the match collection, is as it was:
    [create_document] is not reached. *)
Theorem generate_schedule_too_few_teams (db : database ObjectId)
    (payload : GenerateScheduleRequest) (o : ObjectId) (t : tournament_doc) :
  ObjectId_of_str (gs_tournament_id payload) = Some o ->
  find_one ObjectId ObjectId_eqb (tournament ObjectId db) o = Some t ->
  length (match team_ids t with Some l => l | None => [] end) < 2 ->
  generate_schedule ObjectId ObjectId_eqb ObjectId_of_str create_document
    db payload
  = (db, HTTPException 400 "At least two teams required").
Proof.
  intros Ho Ht Hlen. unfold generate_schedule. rewrite Ho, Ht.
  apply Nat.ltb_lt in Hlen. now rewrite Hlen.
Qed.

(** Whatever the two integers of the request that BSON can encode,
    [update_score] on an existing match stores them and marks the match
    completed. *)
Lemma update_score_stores (db : database ObjectId)
    (payload : UpdateScoreRequest) (o : ObjectId) (m : Match) :
  ObjectId_of_str (match_id payload) = Some o ->
  find_one ObjectId ObjectId_eqb (match_ ObjectId db) o = Some m ->
  int64 (us_home_score payload) = true ->
  int64 (us_away_score payload) = true ->
  exists db',
    update_score ObjectId ObjectId_eqb ObjectId_of_str db payload
    = (db', Returns true)
    /\ tournament ObjectId db' = tournament ObjectId db
    /\ find_one ObjectId ObjectId_eqb (match_ ObjectId db') o
       = Some (set_result (us_home_score payload) (us_away_score payload) m).
Proof.
  intros Ho Hm Hh Ha. unfold update_score. rewrite Ho, Hm, Hh, Ha. eexists.
  split; [reflexivity|]. split; [reflexivity|].
  cbn [match_]. now rewrite find_one_update_one, Hm.
Qed.

End HandlersClaims.

Section HandlersRuns.

Import Schemas Handlers.

Lemma generate_schedule_too_few_teams_witness :
  let db := mkDatabase string [("t1", mkTournament (Some ["A"]))] [] in
  generate_schedule string String.eqb Some store_match db (mkGenerate "t1")
  = (db, HTTPException 400 "At least two teams required").
Proof.
  intros db.
  apply (generate_schedule_too_few_teams string String.eqb Some store_match
           db (mkGenerate "t1") "t1" (mkTournament (Some ["A"]))).
  - reflexivity.
  - reflexivity.
  - cbn. lia.
Defined.

(** C8 fails on the code: [UpdateScoreRequest] declares the scores [int]
    without the bound [ge=0] that [Match] puts on them, and [update_score]
    writes them with [$set], past the validators of [Match]. The request
    with the home score -1 is accepted, and the match it completes stores
    -1, which [Match] itself rejects. *)
Theorem update_score_accepts_negative :
  let m := mkMatch "t1" "A" "B" None scheduled None None in
  let db := mkDatabase string [] [("m1", m)] in
  exists db' m',
    update_score string String.eqb Some db (mkUpdate "m1" (-1) 0)
    = (db', Returns true)
    /\ find_one string String.eqb (match_ string db') "m1" = Some m'
    /\ status m' = completed
    /\ home_score m' = Some (-1)%Z
    /\ Match_valid m = true
    /\ Match_valid m' = false.
Proof.
  intros m db.
  destruct (update_score_stores string String.eqb Some db (mkUpdate "m1" (-1) 0)
              "m1" m eq_refl eq_refl eq_refl eq_refl) as (db' & E & _ & Hm).
  exists db', (set_result (-1) 0 m). repeat split; assumption || reflexivity.
Qed.

End HandlersRuns.

(** * Further properties of the scheduler *)

Section SchedulerRounds.

Import Scheduler Rounds.

Ltac pos_cases :=
  unfold pos in *;
  repeat match goal with
  | |- context [?a =? ?b] => destruct (Nat.eqb_spec a b)
  | |- context [?a <? ?b] => destruct (Nat.ltb_spec a b)
  | H : context [?a =? ?b] |- _ => destruct (Nat.eqb_spec a b)
  | H : context [?a <? ?b] |- _ => destruct (Nat.ltb_spec a b)
  end.

Lemma in_padded (team_ids : list string) (x : string) :
  In x (padded team_ids) -> In x team_ids \/ x = BYE.
Proof.
  unfold padded. destruct (Nat.odd _); [|now left].
  rewrite in_app_iff. cbn. intuition.
Qed.

Lemma NoDup_padded (team_ids : list string) :
  NoDup team_ids -> ~ In BYE team_ids -> NoDup (padded team_ids).
Proof.
  intros Hnd Hb. unfold padded. destruct (Nat.odd _); [|exact Hnd].
  apply NoDup_app; [exact Hnd | repeat constructor; intros [] |].
  intros a Ha [<-|[]]. contradiction.
Qed.

Lemma padded_half (team_ids : list string) :
  exists h, length (padded team_ids) = 2 * h.
Proof.
  pose proof (length_padded_even team_ids) as Hev.
  apply Nat.even_spec in Hev. exact Hev.
Qed.

(** A pairing of the output, traced back to the slot it comes from. *)
Lemma in_schedule_of (teams : list string) (h : nat) (p : string * string) :
  length teams = 2 * h ->
  In p (schedule_of teams) ->
  exists r i,
    r < 2 * h - 1 /\ i < h /\ keep p = true
    /\ p = teams_at teams (fixture_at h r i).
Proof.
  intros Hlen Hp. rewrite (schedule_of_index teams h Hlen) in Hp.
  apply filter_In in Hp as [Hp Hk]. apply in_map_iff in Hp as (q & <- & Hq).
  apply in_index_pairs in Hq as (r & i & Hr & Hi & ->).
  exists r, i. auto.
Qed.

(** X1: on every list of identifiers the function returns, and the two sides
    of every returned pair are identifiers of the input: the placeholder is
    the only string the function adds, and it never comes out. *)
Theorem round_robin_pairings_only_inputs (team_ids : list string) :
  exists out,
    round_robin_pairings team_ids = Some out
    /\ forall p, In p out -> In (fst p) team_ids /\ In (snd p) team_ids.
Proof.
  exists (schedule_of (padded team_ids)).
  split; [apply round_robin_pairings_closed|]. intros p Hp.
  destruct (padded_half team_ids) as [h Hh].
  destruct (in_schedule_of _ h p Hh Hp) as (r & i & Hr & Hi & Hk & ->).
  apply keep_spec in Hk as [H1 H2].
  destruct (fixture_at_range h r i Hr Hi) as (Ha & Hb & _).
  unfold teams_at in *. cbn [fst snd] in *.
  split.
  - destruct (in_padded team_ids (nth (fst (fixture_at h r i)) (padded team_ids) BYE));
      [apply nth_In; lia | assumption | contradiction].
  - destruct (in_padded team_ids (nth (snd (fixture_at h r i)) (padded team_ids) BYE));
      [apply nth_In; lia | assumption | contradiction].
Qed.

Lemma fixture_at_away_pos (h r i : nat) :
  r < 2 * h - 1 -> i < h -> snd (fixture_at h r i) <> 0.
Proof. intros. unfold fixture_at. cbn [snd]. pos_cases; lia. Qed.

(** X2: for distinct identifiers, none of them "BYE", no returned pair sets
    a team against itself, and the first identifier of the input is never
    the away side: it keeps position 0 through every rotation, so it is at
    home in all its fixtures. *)
Theorem round_robin_pairings_sides (team_ids : list string) :
  NoDup team_ids -> ~ In BYE team_ids ->
  exists out,
    round_robin_pairings team_ids = Some out
    /\ forall p, In p out ->
         fst p <> snd p /\ snd p <> nth 0 team_ids BYE.
Proof.
  intros Hnd Hb. exists (schedule_of (padded team_ids)).
  split; [apply round_robin_pairings_closed|]. intros p Hp.
  destruct (padded_half team_ids) as [h Hh].
  destruct (in_schedule_of _ h p Hh Hp) as (r & i & Hr & Hi & Hk & ->).
  destruct (fixture_at_range h r i Hr Hi) as (Ha & Hc & Hne).
  pose proof (fixture_at_away_pos h r i Hr Hi) as Hpos.
  pose proof (proj1 (NoDup_nth (padded team_ids) BYE)
                (NoDup_padded _ Hnd Hb)) as Hinj.
  rewrite keep_teams_at in Hk by exact Hb.
  unfold both_lt in Hk. apply andb_prop in Hk as [_ Hk]. apply Nat.ltb_lt in Hk.
  unfold teams_at. cbn [fst snd]. split.
  - intros E. apply Hinj in E; lia.
  - rewrite <- (nth_padded_real team_ids 0) by lia.
    intros E. apply Hinj in E; lia.
Qed.

Lemma round_robin_pairings_sides_witness :
  exists out,
    round_robin_pairings ["A"; "B"; "C"; "D"] = Some out
    /\ forall p, In p out ->
         fst p <> snd p /\ snd p <> nth 0 ["A"; "B"; "C"; "D"] BYE.
Proof.
  apply (round_robin_pairings_sides ["A"; "B"; "C"; "D"]).
  - repeat constructor; cbn; intuition discriminate.
  - cbn. intuition discriminate.
Defined.

(** X3: fewer than two teams give no fixture: the empty list has no round,
    and the one round of a single team pairs it with the placeholder. *)
Theorem round_robin_pairings_fewer_than_two (team_ids : list string) :
  length team_ids < 2 -> round_robin_pairings team_ids = Some [].
Proof.
  intros Hlen. destruct team_ids as [|a [|b t]]; cbn [length] in Hlen; try lia.
  - reflexivity.
  - rewrite round_robin_pairings_closed.
    unfold padded, schedule_of, round_pairs, keep.
    cbn [length Nat.odd Nat.even negb app Nat.sub Nat.div Nat.divmod fst seq
         flat_map map Nat.iter nat_rect nth filter snd].
    now rewrite String.eqb_refl, andb_false_r.
Qed.

Lemma round_robin_pairings_fewer_than_two_witness :
  round_robin_pairings ["A"] = Some [].
Proof.
  apply (round_robin_pairings_fewer_than_two ["A"]). cbn. lia.
Defined.

Lemma round_pairs_index (teams : list string) (h r : nat) :
  length teams = 2 * h -> r < 2 * h - 1 ->
  round_pairs (2 * h) h (Nat.iter r rot teams)
  = filter keep (map (teams_at teams) (map (fixture_at h r) (seq 0 h))).
Proof.
  intros Hlen Hr. unfold round_pairs. f_equal. rewrite map_map.
  apply map_ext_in. intros i Hi. apply in_seq in Hi.
  unfold teams_at, fixture_at. cbn [fst snd].
  rewrite !(nth_iter_rot teams (2 * h - 1)) by lia. reflexivity.
Qed.

Lemma rounds_of_closed (team_ids : list string) (h : nat) :
  length (padded team_ids) = 2 * h ->
  rounds_of team_ids
  = Some (map (fun r => round_pairs (2 * h) h (Nat.iter r rot (padded team_ids)))
            (seq 0 (2 * h - 1))).
Proof.
  intros Hh. unfold rounds_of. rewrite Hh.
  replace (2 * h / 2) with h by (rewrite Nat.mul_comm, Nat.div_mul; lia).
  rewrite outer_loop_spec.
  - cbn [app]. now rewrite length_seq.
  - lia.
  - exact Hh.
  - destruct h as [|h]; [right; reflexivity | left; lia].
Qed.

Lemma participants_filter (p : string * string -> bool)
    (round : list (string * string)) :
  NoDup (participants round) -> NoDup (participants (filter p round)).
Proof.
  induction round as [|a round IH]; cbn [participants flat_map filter app];
    [auto|].
  fold (participants round). intros H.
  apply NoDup_cons_iff in H as [H1 H]. apply NoDup_cons_iff in H as [H2 H].
  destruct (p a); [|now apply IH].
  cbn [participants flat_map app]. fold (participants (filter p round)).
  assert (Hincl : forall x, In x (participants (filter p round)) ->
                            In x (participants round)).
  { intros x. unfold participants. rewrite !in_flat_map.
    intros (q & Hq & Hx). apply filter_In in Hq as [Hq _]. now exists q. }
  constructor; [|constructor; [|now apply IH]].
  - intros [E|Hin]; [apply H1; now left | apply H1; right; now apply Hincl].
  - intros Hin. apply H2. now apply Hincl.
Qed.

Lemma participants_at (teams : list string) (h r : nat) (l : list nat) :
  participants (map (teams_at teams) (map (fixture_at h r) l))
  = map (fun j => nth j teams BYE)
      (flat_map (fun i => [pos (2 * h - 1) r i;
                           pos (2 * h - 1) r (2 * h - 1 - i)]) l).
Proof.
  induction l as [|i l IH]; [reflexivity|].
  cbn [map participants flat_map app]. fold (participants
    (map (teams_at teams) (map (fixture_at h r) l))). now rewrite IH.
Qed.

(** In a round every position is the side of one slot. *)
Lemma round_participants_NoDup (teams : list string) (h r : nat) :
  NoDup teams -> length teams = 2 * h -> r < 2 * h - 1 ->
  NoDup (participants (map (teams_at teams) (map (fixture_at h r) (seq 0 h)))).
Proof.
  intros Hnd Hlen Hr. rewrite participants_at.
  pose proof (proj1 (NoDup_nth teams BYE) Hnd) as Hinj.
  assert (Hpos : forall i j, In i (seq 0 h) ->
            In j [pos (2 * h - 1) r i; pos (2 * h - 1) r (2 * h - 1 - i)] ->
            j < 2 * h /\ exists s, s <= 2 * h - 1 /\ j = pos (2 * h - 1) r s
                                   /\ (s = i \/ s = 2 * h - 1 - i)).
  { intros i j Hi Hj. apply in_seq in Hi.
    destruct (fixture_at_range h r i Hr) as (Ha & Hb & _); [lia|].
    unfold fixture_at in Ha, Hb. cbn [fst snd] in Ha, Hb.
    destruct Hj as [<-|[<-|[]]]; (split; [assumption|]).
    - exists i. repeat split; auto; lia.
    - exists (2 * h - 1 - i). repeat split; auto; lia. }
  apply NoDup_map_flat_map.
  - apply seq_NoDup.
  - intros i Hi. cbn [map]. apply in_seq in Hi.
    destruct (fixture_at_range h r i Hr) as (Ha & Hb & Hne); [lia|].
    unfold fixture_at in Ha, Hb, Hne. cbn [fst snd] in Ha, Hb, Hne.
    constructor; [|repeat constructor; intros []].
    intros [E|[]]. apply Hinj in E; lia.
  - intros x y b c Hx Hy Hb Hc E.
    destruct (Hpos x b Hx Hb) as (Hb' & sb & Hsb & -> & Hsb').
    destruct (Hpos y c Hy Hc) as (Hc' & sc & Hsc & -> & Hsc').
    apply Hinj in E; [|lia|lia]. apply pos_inj in E; [|lia|lia|lia].
    apply in_seq in Hx, Hy. lia.
Qed.

Lemma both_lt_bye (h r i : nat) :
  r < 2 * h - 1 -> i < h ->
  both_lt (2 * h - 1) (fixture_at h r i) = negb (i =? bye_slot h r).
Proof.
  intros Hr Hi. unfold both_lt, fixture_at, bye_slot. cbn [fst snd].
  apply eq_true_iff_eq.
  rewrite andb_true_iff, negb_true_iff, Nat.eqb_neq, !Nat.ltb_lt.
  pos_cases; lia.
Qed.

Lemma both_lt_full (h r i : nat) :
  r < 2 * h - 1 -> i < h -> both_lt (2 * h) (fixture_at h r i) = true.
Proof.
  intros Hr Hi. destruct (fixture_at_range h r i Hr Hi) as (Ha & Hb & _).
  unfold both_lt. apply andb_true_intro. split; now apply Nat.ltb_lt.
Qed.

Lemma length_filter_but_one (x : nat) (l : list nat) :
  NoDup l -> In x l ->
  S (length (filter (fun i => negb (i =? x)) l)) = length l.
Proof.
  induction l as [|a l IH]; cbn [filter length In]; intros Hnd Hin;
    [contradiction|].
  inversion_clear Hnd as [|? ? Ha Hl].
  destruct (Nat.eqb_spec a x) as [->|Hne]; cbn [negb length].
  - f_equal. rewrite (filter_ext_in _ (fun _ => true)).
    + clear. induction l as [|b l IH]; cbn [filter length]; congruence.
    + intros b Hb. destruct (Nat.eqb_spec b x); [congruence | reflexivity].
  - f_equal. apply IH; [assumption | now destruct Hin].
Qed.

Lemma length_round (team_ids : list string) (h r : nat) :
  ~ In BYE team_ids -> length (padded team_ids) = 2 * h -> r < 2 * h - 1 ->
  length (round_pairs (2 * h) h (Nat.iter r rot (padded team_ids)))
  = length team_ids / 2.
Proof.
  intros Hb Hh Hr. rewrite round_pairs_index by assumption.
  rewrite filter_map_swap, length_map.
  rewrite (filter_ext _ (both_lt (length team_ids)))
    by (intros q; now apply keep_teams_at).
  rewrite filter_map_swap, length_map.
  unfold padded in Hh. destruct (Nat.odd (length team_ids)) eqn:Hodd.
  - rewrite last_length in Hh.
    replace (length team_ids) with (2 * h - 1) by lia.
    rewrite (filter_ext_in _ (fun i => negb (i =? bye_slot h r))).
    + assert (Hs : bye_slot h r < h) by (unfold bye_slot; pos_cases; lia).
      pose proof (length_filter_but_one (bye_slot h r) (seq 0 h)
                    (seq_NoDup h 0)) as E.
      rewrite length_seq in E. specialize (E ltac:(apply in_seq; lia)).
      assert ((2 * h - 1) / 2 = h - 1) as ->.
      { symmetry. apply (Nat.div_unique _ _ _ 1); lia. }
      lia.
    + intros i Hi. apply in_seq in Hi. apply both_lt_bye; lia.
  - rewrite Hh. rewrite (filter_ext_in _ (fun _ => true)).
    + replace (2 * h / 2) with h by (rewrite Nat.mul_comm, Nat.div_mul; lia).
      rewrite <- (length_seq h 0) at 2. f_equal.
      clear. induction (seq 0 h) as [|b l IH]; cbn [filter]; congruence.
    + intros i Hi. apply in_seq in Hi. apply both_lt_full; lia.
Qed.

(** X4: for distinct identifiers, none of them "BYE", the schedule built
    before the final flattening has one round less than the padded list has
    teams, the returned list is these rounds one after the other, no team
    plays twice in a round, and every round has half as many fixtures as
    there are teams, rounded down: with an odd number one team rests. *)
Theorem rounds_each_team_once (team_ids : list string) :
  NoDup team_ids -> ~ In BYE team_ids ->
  exists schedule,
    rounds_of team_ids = Some schedule
    /\ round_robin_pairings team_ids = Some (concat schedule)
    /\ length schedule = length (padded team_ids) - 1
    /\ Forall (fun round => NoDup (participants round)
                            /\ length round = length team_ids / 2) schedule.
Proof.
  intros Hnd Hb. destruct (padded_half team_ids) as [h Hh].
  eexists. split; [apply (rounds_of_closed team_ids h Hh)|].
  split; [|split].
  - rewrite round_robin_pairings_closed. f_equal.
    unfold schedule_of. rewrite Hh.
    replace (2 * h / 2) with h by (rewrite Nat.mul_comm, Nat.div_mul; lia).
    apply flat_map_concat_map.
  - now rewrite length_map, length_seq, Hh.
  - apply Forall_map, Forall_forall. intros r Hr. apply in_seq in Hr.
    split; [|apply length_round; auto; lia].
    rewrite round_pairs_index by (auto; lia).
    apply participants_filter, round_participants_NoDup;
      auto using NoDup_padded; lia.
Qed.

Lemma rounds_each_team_once_witness :
  exists schedule,
    rounds_of ["A"; "B"; "C"] = Some schedule
    /\ round_robin_pairings ["A"; "B"; "C"] = Some (concat schedule)
    /\ length schedule = length (padded ["A"; "B"; "C"]) - 1
    /\ Forall (fun round => NoDup (participants round)
                            /\ length round = length ["A"; "B"; "C"] / 2)
         schedule.
Proof.
  apply (rounds_each_team_once ["A"; "B"; "C"]).
  - repeat constructor; cbn; intuition discriminate.
  - cbn. intuition discriminate.
Defined.

End SchedulerRounds.

(** * Further properties of the standings computation *)

Section StandingsMore.

Import Schemas Standings.
Local Open Scope Z_scope.

Lemma dict_set_entries (Q : string * row -> Prop) (tm : team_map)
    (k : string) (v : row) :
  Q (k, v) -> Forall Q tm -> Forall Q (dict_set tm k v).
Proof.
  intros Hv. induction tm as [|[k0 r] tm IH]; cbn [dict_set]; intros H.
  - now repeat constructor.
  - inversion_clear H as [|? ? Hr Htm].
    destruct (String.eqb_spec k0 k) as [->|]; constructor; auto.
Qed.

Lemma init_table_entries (Q : string * row -> Prop)
    (team_docs : list team_doc) :
  (forall t, Q (doc_id t, initial_row t)) -> Forall Q (init_table team_docs).
Proof.
  intros HQ. unfold init_table.
  assert (H : forall tm : team_map, Forall Q tm ->
            Forall Q (fold_left
                        (fun tm t => dict_set tm (doc_id t) (initial_row t))
                        team_docs tm)).
  { induction team_docs as [|t team_docs IH]; intros tm Htm; cbn [fold_left];
      [assumption|]. apply IH. now apply dict_set_entries. }
  apply H. constructor.
Qed.

(** What the loop keeps of every entry of the table, when each counted
    match of the list keeps it. *)
Lemma fold_process_entries (Q : string * row -> Prop) (ms : list Match) :
  (forall m k r, In m ms -> Q (k, r) -> Q (k, effect m k r)) ->
  forall tm : team_map,
    Forall Q tm -> Forall Q (fold_left process_match ms tm).
Proof.
  induction ms as [|m ms IH]; intros HQ tm Htm; cbn [fold_left]; [assumption|].
  apply IH.
  - intros m' k r Hm'. apply HQ. now right.
  - rewrite process_match_effect. destruct (resolves tm m); [|assumption].
    apply Forall_map. revert Htm. apply Forall_impl. intros [k r] Hkr.
    cbn [fst snd]. apply HQ; [now left | assumption].
Qed.

Lemma standings_rows (P : row -> Prop) (team_docs : list team_doc)
    (ms : list Match) :
  (forall t, P (initial_row t)) ->
  (forall m k r, In m ms -> P r -> P (effect m k r)) ->
  Forall P (standings team_docs ms).
Proof.
  intros Hinit Hstep. unfold standings, table.
  apply (Permutation_Forall (Permutation_sym (sort_desc_perm _))).
  apply Forall_map.
  apply (fold_process_entries (fun e => P (snd e))).
  - intros m k r Hm. cbn [snd]. now apply Hstep.
  - apply init_table_entries. intros t. apply Hinit.
Qed.

Ltac effect_cases m k :=
  unfold effect, self_part, home_part, away_part;
  destruct (String.eqb k (home_team_id m)), (String.eqb k (away_team_id m));
  cbn [team_id name played won drawn lost gf ga gd points];
  destruct (Z.gtb_spec (score (home_score m)) (score (away_score m))),
    (Z.ltb_spec (score (home_score m)) (score (away_score m))),
    (Z.eqb_spec (score (home_score m)) (score (away_score m))).

(** X5: in every row of the standings [played] is the sum of [won], [drawn]
    and [lost], none of the four counters is negative, and the points are
    between 0 and 3 times [played]; this holds for any team set and any
    matches, a team playing itself included. *)
Theorem standings_counters (team_docs : list team_doc) (matches : list Match) :
  Forall (fun r => played r = won r + drawn r + lost r
                   /\ 0 <= won r /\ 0 <= drawn r /\ 0 <= lost r
                   /\ 0 <= points r <= 3 * played r)
    (standings team_docs matches).
Proof.
  apply standings_rows.
  - intros t. cbn. lia.
  - intros m k r _ H. effect_cases m k; lia.
Qed.

Lemma score_ge0 (v : option Z) : ge0 v = true -> 0 <= score v.
Proof. destruct v as [z|]; cbn; [apply Z.leb_le | lia]. Qed.

(** X6: when the scores of all the matches pass the validators of [Match]
    (none is negative), no row has negative goals for or against. *)
Theorem standings_goals_nonnegative (team_docs : list team_doc)
    (matches : list Match) :
  forallb Match_valid matches = true ->
  Forall (fun r => 0 <= gf r /\ 0 <= ga r) (standings team_docs matches).
Proof.
  intros Hv. apply standings_rows.
  - intros t. cbn. lia.
  - intros m k r Hm H.
    assert (Hm' : Match_valid m = true)
      by (rewrite forallb_forall in Hv; now apply Hv).
    unfold Match_valid in Hm'. apply andb_prop in Hm' as [H1 H2].
    apply score_ge0 in H1, H2. effect_cases m k; lia.
Qed.

Lemma standings_goals_nonnegative_witness :
  Forall (fun r => 0 <= gf r /\ 0 <= ga r)
    (standings [mkTeam "X" (Some "Xs"); mkTeam "Y" (Some "Ys")]
       [mkMatch "t" "X" "Y" None completed (Some 3) (Some 1)]).
Proof.
  apply standings_goals_nonnegative. reflexivity.
Defined.

(** X7: the standings have one row for each team identifier of the team
    documents and no other row: the [team_id]s of the rows are pairwise
    different and are exactly the identifiers of the documents, whatever the
    matches. *)
Theorem standings_one_row_per_team (team_docs : list team_doc)
    (matches : list Match) :
  NoDup (map team_id (standings team_docs matches))
  /\ forall k, In k (map team_id (standings team_docs matches))
               <-> In k (map doc_id team_docs).
Proof.
  assert (E : map team_id (table team_docs matches)
              = map fst (init_table team_docs)).
  { unfold table. rewrite <- (fold_process_keys matches), map_map.
    apply map_ext_in. intros [k r] Hin. cbn [fst snd].
    assert (H : Forall (fun e => team_id (snd e) = fst e)
                  (fold_left process_match matches (init_table team_docs))).
    { apply fold_process_entries.
      - intros m k0 r0 _ H. cbn [fst snd] in *.
        transitivity (team_id r0); [|exact H].
        unfold effect, self_part, home_part, away_part.
        destruct (String.eqb k0 (home_team_id m)),
          (String.eqb k0 (away_team_id m)); reflexivity.
      - apply init_table_entries. reflexivity. }
    rewrite Forall_forall in H. exact (H _ Hin). }
  assert (Hp : Permutation (map team_id (standings team_docs matches))
                 (map fst (init_table team_docs))).
  { rewrite <- E. apply Permutation_map, sort_desc_perm. }
  split.
  - apply (Permutation_NoDup (Permutation_sym Hp)), init_table_NoDup.
  - intros k. rewrite <- init_table_keys. split; apply Permutation_in;
      [exact Hp | exact (Permutation_sym Hp)].
Qed.

Lemma process_match_sum (f : row -> Z) (c1 c2 : Z) (tm : team_map)
    (m : Match) :
  (forall k r,
     f (effect m k r)
     = f r + ((if String.eqb k (home_team_id m) then c1 else 0)
              + (if String.eqb k (away_team_id m) then c2 else 0))) ->
  NoDup (map fst tm) ->
  sum_of f (map snd (process_match tm m))
  = sum_of f (map snd tm) + (if resolves tm m then c1 + c2 else 0).
Proof.
  intros Hf Hnd. rewrite process_match_effect.
  destruct (resolves tm m) eqn:Hres; [|lia].
  apply resolves_true in Hres as [Hh Ha].
  rewrite (sum_of_effect f _ m Hf), indicator_add, !indicator_present
    by assumption. reflexivity.
Qed.

(** The sum of a counter over the table: what the counted matches add. *)
Lemma fold_process_sum (f : row -> Z) (c1 c2 : Match -> Z) :
  (forall m k r,
     f (effect m k r)
     = f r + ((if String.eqb k (home_team_id m) then c1 m else 0)
              + (if String.eqb k (away_team_id m) then c2 m else 0))) ->
  forall (ms : list Match) (tm : team_map),
    NoDup (map fst tm) ->
    sum_of f (map snd (fold_left process_match ms tm))
    = sum_of f (map snd tm)
      + fold_right Z.add 0 (map (fun m => c1 m + c2 m) (filter (resolves tm) ms)).
Proof.
  intros Hf. induction ms as [|m ms IH]; intros tm Hnd; cbn [fold_left filter].
  - cbn. lia.
  - rewrite IH by now rewrite process_match_keys.
    rewrite (process_match_sum f (c1 m) (c2 m)) by auto.
    rewrite (filter_ext (resolves (process_match tm m)) (resolves tm))
      by (intros m0; apply resolves_keys, process_match_keys).
    destruct (resolves tm m); cbn [map fold_right]; lia.
Qed.

Lemma init_table_sum (f : row -> Z) (team_docs : list team_doc) :
  (forall t, f (initial_row t) = 0) ->
  sum_of f (map snd (init_table team_docs)) = 0.
Proof.
  intros Hf.
  assert (H : Forall (fun r => f r = 0) (map snd (init_table team_docs))).
  { apply Forall_map, init_table_entries. intros t. apply Hf. }
  induction H as [|r l Hr _ IH]; [reflexivity|].
  cbn [sum_of fold_right] in *. unfold sum_of in *. lia.
Qed.

Lemma standings_sum (f : row -> Z) (c1 c2 : Match -> Z)
    (team_docs : list team_doc) (ms : list Match) :
  (forall t, f (initial_row t) = 0) ->
  (forall m k r,
     f (effect m k r)
     = f r + ((if String.eqb k (home_team_id m) then c1 m else 0)
              + (if String.eqb k (away_team_id m) then c2 m else 0))) ->
  sum_of f (standings team_docs ms)
  = fold_right Z.add 0
      (map (fun m => c1 m + c2 m) (filter (counted team_docs) ms)).
Proof.
  intros H0 Hf. unfold standings, table.
  rewrite (sum_of_perm _ _ _ (sort_desc_perm _)).
  rewrite (fold_process_sum f c1 c2 Hf) by apply init_table_NoDup.
  now rewrite init_table_sum.
Qed.

Lemma sum_by_outcome (q d : Match -> bool) (x y : Z) (ms : list Match) :
  fold_right Z.add 0 (map (fun m => if d m then x else y) (filter q ms))
  = x * count_matches (fun m => q m && d m) ms
    + y * count_matches (fun m => q m && negb (d m)) ms.
Proof.
  induction ms as [|m ms IH];
    [unfold count_matches; cbn [filter length map fold_right Z.of_nat]; ring|].
  rewrite !count_matches_cons. cbn [filter].
  destruct (q m); cbn [map fold_right andb]; destruct (d m);
    cbn [negb]; rewrite IH; ring.
Qed.

Lemma sum_constant (c : Z) (ms : list Match) :
  fold_right Z.add 0 (map (fun _ => c) ms) = c * Z.of_nat (length ms).
Proof.
  induction ms as [|m ms IH]; cbn [map fold_right length]; [ring|].
  rewrite IH, Nat2Z.inj_succ. ring.
Qed.

Lemma sum_of_gd (rows : list row) :
  Forall row_invariant rows ->
  sum_of gd rows = sum_of gf rows - sum_of ga rows.
Proof.
  induction 1 as [|r l [Hr _] _ IH]; [reflexivity|].
  cbn [sum_of fold_right] in *. unfold sum_of in *. lia.
Qed.

(** X8: over the rows of the standings, [played] adds up to twice the
    number of counted matches (those whose two identifiers resolve), the
    goals for add up to the goals scored in the counted matches and so do
    the goals against, the goal differences add up to 0, there are as many
    losses as wins, and the points add up to 3 for each decisive counted
    match and 2 for each drawn one. *)
Theorem standings_totals_balance (team_docs : list team_doc)
    (matches : list Match) :
  let rows := standings team_docs matches in
  let goals :=
    fold_right Z.add 0
      (map (fun m => score (home_score m) + score (away_score m))
         (filter (counted team_docs) matches)) in
  sum_of played rows = 2 * count_matches (counted team_docs) matches
  /\ sum_of gf rows = goals
  /\ sum_of ga rows = goals
  /\ sum_of gd rows = 0
  /\ sum_of lost rows = sum_of won rows
  /\ sum_of points rows
     = 3 * count_matches (fun m => counted team_docs m && decisive m) matches
       + 2 * count_matches (fun m => counted team_docs m && negb (decisive m))
               matches.
Proof.
  intros rows goals. subst rows goals.
  assert (Hgf : sum_of gf (standings team_docs matches)
                = fold_right Z.add 0
                    (map (fun m => score (home_score m) + score (away_score m))
                       (filter (counted team_docs) matches))).
  { apply (standings_sum gf (fun m => score (home_score m))
             (fun m => score (away_score m))); [reflexivity|].
    intros m k r. effect_cases m k; lia. }
  assert (Hga : sum_of ga (standings team_docs matches)
                = fold_right Z.add 0
                    (map (fun m => score (home_score m) + score (away_score m))
                       (filter (counted team_docs) matches))).
  { rewrite (standings_sum ga (fun m => score (away_score m))
               (fun m => score (home_score m))); [|reflexivity|].
    - f_equal. apply map_ext. intros m. lia.
    - intros m k r. effect_cases m k; lia. }
  repeat split.
  - rewrite (standings_sum played (fun _ => 1) (fun _ => 1)); [|reflexivity|].
    + unfold count_matches. apply (sum_constant (1 + 1)).
    + intros m k r. effect_cases m k; lia.
  - exact Hgf.
  - exact Hga.
  - rewrite sum_of_gd; [lia|].
    unfold standings.
    apply (Permutation_Forall (Permutation_sym (sort_desc_perm _))).
    apply fold_process_invariant, init_table_invariant.
  - rewrite (standings_sum lost
               (fun m => if score (home_score m) <? score (away_score m)
                         then 1 else 0)
               (fun m => if score (home_score m) >? score (away_score m)
                         then 1 else 0)); [|reflexivity|].
    + rewrite (standings_sum won
                 (fun m => if score (home_score m) >? score (away_score m)
                           then 1 else 0)
                 (fun m => if score (home_score m) <? score (away_score m)
                           then 1 else 0)); [|reflexivity|].
      * f_equal. apply map_ext. intros m. lia.
      * intros m k r. effect_cases m k; lia.
    + intros m k r. effect_cases m k; lia.
  - rewrite <- sum_by_outcome.
    rewrite (standings_sum points
               (fun m => if score (home_score m) >? score (away_score m) then 3
                         else if score (home_score m) =? score (away_score m)
                              then 1 else 0)
               (fun m => if score (home_score m) <? score (away_score m) then 3
                         else if score (home_score m) =? score (away_score m)
                              then 1 else 0)); [|reflexivity|].
    + f_equal. apply map_ext. intros m. unfold decisive.
      destruct (Z.gtb_spec (score (home_score m)) (score (away_score m))),
        (Z.ltb_spec (score (home_score m)) (score (away_score m))),
        (Z.eqb_spec (score (home_score m)) (score (away_score m)));
        cbn [negb]; lia.
    + intros m k r. effect_cases m k; lia.
Qed.

Lemma effect_comm (m1 m2 : Match) (k : string) (r : row) :
  effect m2 k (effect m1 k r) = effect m1 k (effect m2 k r).
Proof.
  unfold effect.
  destruct (String.eqb k (home_team_id m1)), (String.eqb k (away_team_id m1)),
    (String.eqb k (home_team_id m2)), (String.eqb k (away_team_id m2));
    try reflexivity;
    unfold self_part, home_part, away_part;
    cbn [team_id name played won drawn lost gf ga gd points];
    f_equal; ring.
Qed.

Lemma process_match_comm (tm : team_map) (m1 m2 : Match) :
  process_match (process_match tm m1) m2
  = process_match (process_match tm m2) m1.
Proof.
  rewrite (process_match_effect (process_match tm m1) m2),
    (process_match_effect (process_match tm m2) m1).
  rewrite (resolves_keys _ tm m2) by apply process_match_keys.
  rewrite (resolves_keys _ tm m1) by apply process_match_keys.
  rewrite !process_match_effect.
  destruct (resolves tm m1), (resolves tm m2); try reflexivity.
  rewrite !map_map. apply map_ext. intros [k r]. cbn [fst snd].
  now rewrite effect_comm.
Qed.

Lemma fold_process_perm (ms ms' : list Match) :
  Permutation ms ms' ->
  forall tm, fold_left process_match ms tm = fold_left process_match ms' tm.
Proof.
  induction 1 as [|m l l' _ IH|m1 m2 l|l l' l'' _ IH1 _ IH2]; intros tm;
    cbn [fold_left].
  - reflexivity.
  - apply IH.
  - now rewrite process_match_comm.
  - now rewrite IH1.
Qed.

(** X9: the standings do not depend on the order in which the query returns
    the completed matches: two lists with the same matches, in any order,
    give the same table, rows and order of rows. *)
Theorem standings_order_of_matches (team_docs : list team_doc)
    (matches matches' : list Match) :
  Permutation matches matches' ->
  standings team_docs matches = standings team_docs matches'.
Proof.
  intros H. unfold standings, table. now rewrite (fold_process_perm _ _ H).
Qed.

Lemma standings_order_of_matches_witness :
  let team_docs := [mkTeam "X" (Some "Xs"); mkTeam "Y" (Some "Ys")] in
  let m1 := mkMatch "t" "X" "Y" None completed (Some 3) (Some 1) in
  let m2 := mkMatch "t" "Y" "X" None completed (Some 2) (Some 2) in
  standings team_docs [m1; m2] = standings team_docs [m2; m1].
Proof.
  intros team_docs m1 m2.
  apply (standings_order_of_matches team_docs [m1; m2] [m2; m1]).
  apply perm_swap.
Defined.

Lemma fold_process_counted (ms : list Match) :
  forall tm : team_map,
    fold_left process_match ms tm
    = fold_left process_match (filter (resolves tm) ms) tm.
Proof.
  induction ms as [|m ms IH]; intros tm; cbn [fold_left filter]; [reflexivity|].
  rewrite IH.
  rewrite (filter_ext (resolves (process_match tm m)) (resolves tm))
    by (intros m0; apply resolves_keys, process_match_keys).
  destruct (resolves tm m) eqn:E; [reflexivity|].
  unfold process_match at 2. now rewrite E.
Qed.

(** X10: the matches with an identifier outside the team set leave no trace
    wherever they stand in the list: the standings are those of the counted
    matches alone. *)
Theorem standings_of_counted (team_docs : list team_doc) (matches : list Match) :
  standings team_docs matches
  = standings team_docs (filter (counted team_docs) matches).
Proof.
  unfold standings, table, counted. now rewrite fold_process_counted.
Qed.

Lemma dict_set_fresh (tm : team_map) (k : string) (v : row) :
  ~ In k (map fst tm) -> dict_set tm k v = tm ++ [(k, v)].
Proof.
  induction tm as [|[k0 r] tm IH]; cbn [dict_set map fst In app]; intros H;
    [reflexivity|].
  destruct (String.eqb_spec k0 k) as [->|]; [tauto|]. rewrite IH; tauto.
Qed.

Lemma init_table_distinct (team_docs : list team_doc) :
  NoDup (map doc_id team_docs) ->
  init_table team_docs = map (fun t => (doc_id t, initial_row t)) team_docs.
Proof.
  unfold init_table.
  assert (H : forall (done : list team_doc),
            NoDup (map doc_id (done ++ team_docs)) ->
            fold_left (fun tm t => dict_set tm (doc_id t) (initial_row t))
              team_docs (map (fun t => (doc_id t, initial_row t)) done)
            = map (fun t => (doc_id t, initial_row t)) (done ++ team_docs)).
  { induction team_docs as [|t team_docs IH]; intros done Hnd;
      cbn [fold_left].
    - now rewrite app_nil_r.
    - rewrite dict_set_fresh.
      + replace (map (fun t => (doc_id t, initial_row t)) done
                 ++ [(doc_id t, initial_row t)])
          with (map (fun t => (doc_id t, initial_row t)) (done ++ [t]))
          by now rewrite map_app.
        replace (done ++ t :: team_docs) with ((done ++ [t]) ++ team_docs)
          in * by now rewrite <- app_assoc.
        now apply IH.
      + rewrite map_map. cbn [fst]. rewrite map_app in Hnd.
        apply NoDup_remove_2 in Hnd. intros Hin. apply Hnd.
        apply in_or_app. now left. }
  intros Hnd. apply (H [] Hnd).
Qed.

Lemma sort_desc_tied (l : list row) (k : Z * Z * Z) :
  Forall (fun r => key r = k) l -> sort_desc l = l.
Proof.
  induction 1 as [|x l Hx Hl IH]; [reflexivity|].
  cbn [sort_desc fold_right]. fold (sort_desc l). rewrite IH.
  destruct l as [|y l]; [reflexivity|]. cbn [insert_desc].
  inversion_clear Hl as [|? ? Hy _]. rewrite Hx, Hy.
  destruct k as [[p d] f]. unfold key_ltb.
  now rewrite !Z.ltb_irrefl, !andb_false_r.
Qed.

(** X11: with no completed match the standings list the teams in the order
    of the team documents, every counter at 0: the sort moves nothing when
    all the keys are equal. It is so for team documents with pairwise
    different identifiers, as a collection has them. *)
Theorem standings_without_matches (team_docs : list team_doc) :
  NoDup (map doc_id team_docs) ->
  standings team_docs [] = map initial_row team_docs.
Proof.
  intros Hnd. unfold standings, table. cbn [fold_left].
  rewrite (init_table_distinct _ Hnd), map_map. cbn [snd].
  apply (sort_desc_tied _ (0, 0, 0)).
  apply Forall_map, Forall_forall. reflexivity.
Qed.

Lemma standings_without_matches_witness :
  standings [mkTeam "Y" (Some "Ys"); mkTeam "X" None] []
  = map initial_row [mkTeam "Y" (Some "Ys"); mkTeam "X" None].
Proof.
  apply standings_without_matches.
  repeat constructor; cbn; intuition discriminate.
Defined.

End StandingsMore.

(** * Further properties of the handlers *)

Section ScheduleComplete.

Import Scheduler.

(** The schedule of distinct identifiers that are not the placeholder. *)
Lemma schedule_complete (team_ids : list string) :
  NoDup team_ids -> ~ In BYE team_ids ->
  length (schedule_of (padded team_ids))
  = length team_ids * (length team_ids - 1) / 2
  /\ forall a b, In a team_ids -> In b team_ids -> a <> b ->
       fixture_count a b (schedule_of (padded team_ids)) = 1.
Proof.
  intros Hnd Hb.
  pose proof (length_padded_even team_ids) as Hev.
  apply Nat.even_spec in Hev. destruct Hev as [h Hh].
  pose proof (length_padded_ge team_ids) as Hk. rewrite Hh in Hk.
  pose proof (real_index_pairs h (length team_ids) Hk) as Hperm.
  rewrite (schedule_of_real _ h Hb Hh). split.
  - rewrite length_map, <- (length_map norm), (Permutation_length Hperm).
    apply length_all_pairs_div.
  - intros a b Ha Hb' Hab.
    destruct (In_nth _ _ BYE Ha) as (x & Hx & <-).
    destruct (In_nth _ _ BYE Hb') as (y & Hy & <-).
    assert (Hxy : x <> y) by congruence.
    unfold fixture_count. rewrite filter_map_swap, length_map.
    rewrite (filter_ext_in _ (fun p => pair_eqb (norm p) (norm (x, y)))).
    + apply filter_image_once.
      * apply NoDup_map_filter, NoDup_index_pairs.
      * apply (Permutation_in _ (Permutation_sym Hperm)).
        unfold norm. cbn [fst snd]. apply in_all_pairs. lia.
    + intros p Hp. apply filter_In in Hp as [_ Hp].
      now apply is_fixture_teams_at.
Qed.

End ScheduleComplete.

Section HandlersMore.

Import Schemas Handlers.

Variable ObjectId : Type.
Variable ObjectId_eqb : ObjectId -> ObjectId -> bool.
Variable ObjectId_of_str : string -> option ObjectId.
Variable create_document :
  database ObjectId -> Match -> database ObjectId * option string.

Lemma create_matches_no_http (pairings : list (string * string)) :
  forall (db : database ObjectId) (tid : string) (created : list string)
         db' code detail,
    create_matches ObjectId create_document db tid pairings created
    <> (db', HTTPException code detail).
Proof.
  induction pairings as [|[home_id away_id] pairings IH];
    intros db tid created db' code detail; cbn [create_matches].
  - discriminate.
  - destruct (create_document db _) as [db1 [new_id|]];
      [apply IH | discriminate].
Qed.

(** X12: whenever [generate_schedule] ends in an [HTTPException], its
    status is 400 or 404 and the database is as it was before the request:
    the loop that creates the matches raises no [HTTPException], so none is
    raised after a first match was created. *)
Theorem generate_schedule_http_error (db db' : database ObjectId)
    (payload : GenerateScheduleRequest) (code : nat) (detail : string) :
  generate_schedule ObjectId ObjectId_eqb ObjectId_of_str create_document
    db payload = (db', HTTPException code detail) ->
  db' = db /\ (code = 400 \/ code = 404).
Proof.
  unfold generate_schedule.
  destruct (ObjectId_of_str _) as [o|]; [|intros [= <- <- _]; auto].
  destruct (find_one _ _ _ o) as [t|]; [|intros [= <- <- _]; auto].
  destruct (_ <? 2); [intros [= <- <- _]; auto|].
  destruct (Scheduler.round_robin_pairings _) as [pairings|]; [|discriminate].
  intros E. now apply create_matches_no_http in E.
Qed.

Lemma create_matches_all (pairings : list (string * string)) :
  (forall db m, exists db' new_id, create_document db m = (db', Some new_id)) ->
  forall (db : database ObjectId) (tid : string) (created : list string),
  exists db' created',
    create_matches ObjectId create_document db tid pairings created
    = (db', Returns created')
    /\ length created' = length created + length pairings.
Proof.
  intros Hc. induction pairings as [|[home_id away_id] pairings IH];
    intros db tid created; cbn [create_matches].
  - exists db, created. cbn. split; [reflexivity | lia].
  - destruct (Hc db (mkMatch tid home_id away_id None scheduled None None))
      as (db1 & new_id & ->).
    destruct (IH db1 tid (created ++ [new_id])) as (db' & created' & -> & Hl).
    exists db', created'. split; [reflexivity|].
    rewrite Hl, length_app. cbn [length]. lia.
Qed.

(** X13: when the persistence layer stores every match it is given, a
    request for a tournament of n >= 2 distinct team identifiers, none of
    them "BYE", returns the identifiers of n * (n - 1) / 2 created matches:
    one per pairing, none lost. *)
Theorem generate_schedule_creates_all (db : database ObjectId)
    (payload : GenerateScheduleRequest) (o : ObjectId) (t : tournament_doc)
    (ids : list string) :
  (forall db m, exists db' new_id, create_document db m = (db', Some new_id)) ->
  ObjectId_of_str (gs_tournament_id payload) = Some o ->
  find_one ObjectId ObjectId_eqb (tournament ObjectId db) o = Some t ->
  team_ids t = Some ids ->
  2 <= length ids -> NoDup ids -> ~ In Scheduler.BYE ids ->
  exists db' created,
    generate_schedule ObjectId ObjectId_eqb ObjectId_of_str create_document
      db payload = (db', Returns created)
    /\ length created = length ids * (length ids - 1) / 2.
Proof.
  intros Hc Ho Ht Hids Hlen Hnd Hb. unfold generate_schedule.
  rewrite Ho, Ht, Hids.
  destruct (Nat.ltb_spec (length ids) 2) as [|_]; [lia|].
  rewrite round_robin_pairings_closed.
  destruct (create_matches_all
              (Scheduler.schedule_of (Scheduler.padded ids)) Hc db
              (gs_tournament_id payload) [])
    as (db' & created & E & Hl).
  exists db', created. split; [exact E|].
  rewrite Hl. cbn [length Nat.add]. now apply schedule_complete.
Qed.

Lemma update_one_keys {D : Type} (docs : list (ObjectId * D)) (o : ObjectId)
    (set : D -> D) :
  map fst (update_one ObjectId ObjectId_eqb docs o set) = map fst docs.
Proof.
  induction docs as [|[o' d] docs IH]; [reflexivity|]. cbn [update_one].
  destruct (ObjectId_eqb o' o); cbn [map fst]; [reflexivity | now rewrite IH].
Qed.

(** X14: [update_score] never adds, removes or renames a document: after
    any request the tournaments are untouched and the match collection
    holds the same identifiers in the same order; unless it returns, with a
    match updated, the database is as it was; and an exception other than
    [HTTPException] escapes exactly when the match exists and one of the
    scores does not fit the 64 bits of a BSON integer. *)
Theorem update_score_keeps_documents (db db' : database ObjectId)
    (payload : UpdateScoreRequest) (out : outcome bool) :
  update_score ObjectId ObjectId_eqb ObjectId_of_str db payload = (db', out) ->
  tournament ObjectId db' = tournament ObjectId db
  /\ map fst (match_ ObjectId db') = map fst (match_ ObjectId db)
  /\ (out <> Returns true -> db' = db)
  /\ (out = Raises <->
      exists o m,
        ObjectId_of_str (match_id payload) = Some o
        /\ find_one ObjectId ObjectId_eqb (match_ ObjectId db) o = Some m
        /\ int64 (us_home_score payload) && int64 (us_away_score payload)
           = false).
Proof.
  unfold update_score.
  destruct (ObjectId_of_str _) as [o|].
  - destruct (find_one _ _ _ o) as [m|] eqn:Hm.
    + destruct (int64 (us_home_score payload) && int64 (us_away_score payload))
        eqn:Hr; intros [= <- <-]; cbn [tournament match_].
      * repeat split; auto using update_one_keys; try congruence.
        intros (o' & m' & _ & _ & [=]).
      * repeat split; auto. intros _. exists o, m. auto.
    + intros [= <- <-]. repeat split; auto; try discriminate.
      intros (o' & m' & [= <-] & Hm' & _). congruence.
  - intros [= <- <-]. repeat split; auto; try discriminate.
    intros (o' & m' & [=] & _).
Qed.

Lemma update_one_ext {D : Type} (docs : list (ObjectId * D)) (o : ObjectId)
    (f g : D -> D) :
  (forall d, f d = g d) ->
  update_one ObjectId ObjectId_eqb docs o f
  = update_one ObjectId ObjectId_eqb docs o g.
Proof.
  intros H. induction docs as [|[o' d] docs IH]; [reflexivity|].
  cbn [update_one]. destruct (ObjectId_eqb o' o); [now rewrite H | now rewrite IH].
Qed.

Lemma update_one_twice {D : Type} (docs : list (ObjectId * D)) (o : ObjectId)
    (f g : D -> D) :
  update_one ObjectId ObjectId_eqb
    (update_one ObjectId ObjectId_eqb docs o f) o g
  = update_one ObjectId ObjectId_eqb docs o (fun d => g (f d)).
Proof.
  induction docs as [|[o' d] docs IH]; [reflexivity|]. cbn [update_one].
  destruct (ObjectId_eqb o' o) eqn:E; cbn [update_one]; rewrite E;
    [reflexivity | now rewrite IH].
Qed.

(** X15: a second [update_score] on the same existing match, with scores
    that fit 64 bits, overwrites the first: the database and the answer are
    those of the second request alone, the handler not looking at the status
    the match had. *)
Theorem update_score_overwrites (db : database ObjectId)
    (first second : UpdateScoreRequest) (o : ObjectId) (m : Match) :
  ObjectId_of_str (match_id first) = Some o ->
  match_id second = match_id first ->
  find_one ObjectId ObjectId_eqb (match_ ObjectId db) o = Some m ->
  int64 (us_home_score second) = true ->
  int64 (us_away_score second) = true ->
  update_score ObjectId ObjectId_eqb ObjectId_of_str
    (fst (update_score ObjectId ObjectId_eqb ObjectId_of_str db first)) second
  = update_score ObjectId ObjectId_eqb ObjectId_of_str db second.
Proof.
  intros Ho Hid Hm Hh Ha. unfold update_score. rewrite Hid, Ho, Hm, Hh, Ha.
  destruct (int64 (us_home_score first) && int64 (us_away_score first));
    cbn [fst match_ tournament andb].
  - rewrite find_one_update_one, Hm. cbn [option_map].
    rewrite update_one_twice. reflexivity.
  - now rewrite Hm.
Qed.

Lemma find_one_in {D : Type} (docs : list (ObjectId * D)) (o : ObjectId)
    (d : D) (set : D -> D) :
  find_one ObjectId ObjectId_eqb docs o = Some d ->
  exists o', In (o', set d) (update_one ObjectId ObjectId_eqb docs o set).
Proof.
  induction docs as [|[o' d'] docs IH]; [discriminate|].
  cbn [find_one update_one]. destruct (ObjectId_eqb o' o).
  - intros [= ->]. exists o'. now left.
  - intros H. destruct (IH H) as (o'' & Hin). exists o''. now right.
Qed.

(** X16: after [update_score] on an existing match, with scores that fit
    64 bits, the query of [standings] for the completed matches of its
    tournament returns the match with the two scores of the request, its
    teams and tournament unchanged. *)
Theorem update_score_then_completed (db : database ObjectId)
    (payload : UpdateScoreRequest) (o : ObjectId) (m : Match) :
  ObjectId_of_str (match_id payload) = Some o ->
  find_one ObjectId ObjectId_eqb (match_ ObjectId db) o = Some m ->
  int64 (us_home_score payload) = true ->
  int64 (us_away_score payload) = true ->
  In (mkMatch (tournament_id m) (home_team_id m) (away_team_id m)
        (scheduled_date m) completed
        (Some (us_home_score payload)) (Some (us_away_score payload)))
     (Registry.find_completed ObjectId
        (match_ ObjectId
           (fst (update_score ObjectId ObjectId_eqb ObjectId_of_str db payload)))
        (tournament_id m)).
Proof.
  intros Ho Hm Hh Ha. unfold update_score. rewrite Ho, Hm, Hh, Ha.
  cbn [fst match_ andb].
  destruct (find_one_in _ o m
              (set_result (us_home_score payload) (us_away_score payload)) Hm)
    as (o' & Hin).
  unfold Registry.find_completed. apply in_map_iff.
  exists (o', set_result (us_home_score payload) (us_away_score payload) m).
  split; [reflexivity|]. apply filter_In. split; [exact Hin|].
  cbn [snd set_result tournament_id status Registry.is_completed].
  now rewrite String.eqb_refl.
Qed.

End HandlersMore.

Section HandlersMoreRuns.

Import Schemas Handlers.

Lemma store_match_stores (db : database string) (m : Match) :
  exists db' new_id, store_match db m = (db', Some new_id).
Proof. unfold store_match. eauto. Qed.

Lemma generate_schedule_http_error_witness :
  let db := mkDatabase string [] [] in
  db = db /\ (404 = 400 \/ 404 = 404).
Proof.
  intros db.
  apply (generate_schedule_http_error string String.eqb Some store_match
           db db (mkGenerate "t1") 404 "Tournament not found").
  reflexivity.
Defined.

Lemma generate_schedule_creates_all_witness :
  let ids := ["A"; "B"; "C"] in
  let db := mkDatabase string [("t1", mkTournament (Some ids))] [] in
  exists db' created,
    generate_schedule string String.eqb Some store_match db (mkGenerate "t1")
    = (db', Returns created)
    /\ length created = length ids * (length ids - 1) / 2.
Proof.
  intros ids db.
  apply (generate_schedule_creates_all string String.eqb Some store_match
           db (mkGenerate "t1") "t1" (mkTournament (Some ids)) ids).
  - exact store_match_stores.
  - reflexivity.
  - reflexivity.
  - reflexivity.
  - cbn. lia.
  - repeat constructor; cbn; intuition discriminate.
  - cbn. intuition discriminate.
Defined.

Lemma update_score_keeps_documents_witness :
  let m := mkMatch "t1" "A" "B" None scheduled None None in
  let db := mkDatabase string [] [("m1", m)] in
  tournament string db = tournament string db
  /\ map fst (match_ string db) = map fst (match_ string db)
  /\ (@Raises bool <> Returns true -> db = db)
  /\ (@Raises bool = Raises <->
      exists o m',
        Some (match_id (mkUpdate "m1" (2 ^ 63) 1)) = Some o
        /\ find_one string String.eqb (match_ string db) o = Some m'
        /\ int64 (us_home_score (mkUpdate "m1" (2 ^ 63) 1))
           && int64 (us_away_score (mkUpdate "m1" (2 ^ 63) 1)) = false).
Proof.
  intros m db.
  apply (update_score_keeps_documents string String.eqb Some db db
           (mkUpdate "m1" (2 ^ 63) 1) Raises).
  reflexivity.
Defined.

Lemma update_score_overwrites_witness :
  let m := mkMatch "t1" "A" "B" None scheduled None None in
  let db := mkDatabase string [] [("m1", m)] in
  update_score string String.eqb Some
    (fst (update_score string String.eqb Some db (mkUpdate "m1" 2 1)))
    (mkUpdate "m1" 0 0)
  = update_score string String.eqb Some db (mkUpdate "m1" 0 0).
Proof.
  intros m db.
  apply (update_score_overwrites string String.eqb Some db
           (mkUpdate "m1" 2 1) (mkUpdate "m1" 0 0) "m1" m);
    reflexivity.
Defined.

Lemma update_score_then_completed_witness :
  let m := mkMatch "t1" "A" "B" None scheduled None None in
  let db := mkDatabase string [] [("m1", m)] in
  In (mkMatch "t1" "A" "B" None completed (Some 2%Z) (Some 1%Z))
     (Registry.find_completed string
        (match_ string
           (fst (update_score string String.eqb Some db (mkUpdate "m1" 2 1))))
        "t1").
Proof.
  intros m db.
  apply (update_score_then_completed string String.eqb Some db
           (mkUpdate "m1" 2 1) "m1" m); reflexivity.
Defined.

End HandlersMoreRuns.

(** * Properties of [create_tournament] and of the handler [standings] *)

Section RegistryFacts.

Import Schemas Handlers Registry.

Variable ObjectId : Type.
Variable ObjectId_eqb : ObjectId -> ObjectId -> bool.
Variable ObjectId_of_str : string -> option ObjectId.
Variable create_document :
  store ObjectId -> Tournament -> store ObjectId * option string.

(** Two [ObjectId]s are equal to the test exactly when they are the same. *)
Hypothesis ObjectId_eqb_eq : forall a b, ObjectId_eqb a b = true <-> a = b.

Lemma oids_of_map (ids : list string) (os : list ObjectId) :
  oids_of ObjectId ObjectId_of_str ids = Some os ->
  map ObjectId_of_str ids = map Some os.
Proof.
  revert os. induction ids as [|t ids IH]; intros os; cbn [oids_of].
  - now intros [= <-].
  - destruct (ObjectId_of_str t) as [o|] eqn:Et; [|discriminate].
    destruct (oids_of _ _ ids) as [os'|]; [|discriminate].
    intros [= <-]. cbn [map]. now rewrite Et, (IH os').
Qed.

Lemma oids_of_NoDup (ids : list string) (os : list ObjectId) :
  oids_of ObjectId ObjectId_of_str ids = Some os -> NoDup os -> NoDup ids.
Proof.
  intros E Hnd. apply (NoDup_map_inv ObjectId_of_str).
  rewrite (oids_of_map _ _ E).
  apply NoDup_map_NoDup_ForallPairs; [|exact Hnd].
  intros a b _ _ [=]. assumption.
Qed.

Lemma oids_of_in (ids : list string) (os : list ObjectId) (t : string) :
  oids_of ObjectId ObjectId_of_str ids = Some os -> In t ids ->
  exists o, ObjectId_of_str t = Some o /\ In o os.
Proof.
  intros E Hin. apply (in_map ObjectId_of_str) in Hin.
  rewrite (oids_of_map _ _ E) in Hin.
  apply in_map_iff in Hin as (o & Ho & Hin). exists o. auto.
Qed.

Lemma id_in_true (os : list ObjectId) (d : ObjectId * Team) :
  id_in ObjectId ObjectId_eqb os d = true <-> In (fst d) os.
Proof.
  unfold id_in. rewrite existsb_exists. split.
  - intros (x & Hx & E). apply ObjectId_eqb_eq in E. now rewrite E.
  - intros H. exists (fst d). split; [exact H | now apply ObjectId_eqb_eq].
Qed.

Lemma found_ids (docs : list (ObjectId * Team)) (os : list ObjectId)
    (o : ObjectId) :
  In o (map fst (filter (id_in ObjectId ObjectId_eqb os) docs))
  <-> In o os /\ In o (map fst docs).
Proof.
  rewrite !in_map_iff. split.
  - intros (d & <- & Hd). apply filter_In in Hd as [Hd Hin].
    apply id_in_true in Hin. split; [exact Hin | now exists d].
  - intros (Ho & d & <- & Hd). exists d. split; [reflexivity|].
    apply filter_In. split; [exact Hd | now apply id_in_true].
Qed.

(** The count equals the number of identifiers asked for exactly when they
    are pairwise different and each is the identifier of a document. *)
Lemma count_documents_in_full (docs : list (ObjectId * Team))
    (os : list ObjectId) :
  NoDup (map fst docs) ->
  count_documents_in ObjectId ObjectId_eqb docs os = length os
  <-> NoDup os /\ forall o, In o os -> In o (map fst docs).
Proof.
  intros Hnd. unfold count_documents_in.
  rewrite <- (length_map fst).
  assert (HL : NoDup (map fst (filter (id_in ObjectId ObjectId_eqb os) docs)))
    by now apply NoDup_map_filter.
  split.
  - intros E. split.
    + apply (NoDup_incl_NoDup HL); [lia|].
      intros o Ho. now apply found_ids in Ho.
    + intros o Ho.
      apply (NoDup_length_incl HL (l' := os)) in Ho; [|lia|].
      * now apply found_ids in Ho.
      * intros x Hx. now apply found_ids in Hx.
  - intros [Hos Hall]. apply Permutation_length, NoDup_Permutation; auto.
    intros o. rewrite found_ids. split; [tauto | auto].
Qed.

(** X17: a tournament that [create_tournament] accepts has team identifiers
    that are pairwise different, are all well formed, and are each the
    identifier of a stored team; the documents of the [team] collection
    having pairwise different identifiers. *)
Theorem create_tournament_accepted (st st' : store ObjectId)
    (tournament : Tournament) (new_id : string) :
  NoDup (map fst (team ObjectId st)) ->
  create_tournament ObjectId ObjectId_eqb ObjectId_of_str create_document
    st tournament = (st', Returns new_id) ->
  NoDup (tournament_team_ids tournament)
  /\ forall t, In t (tournament_team_ids tournament) ->
       exists o, ObjectId_of_str t = Some o
                 /\ In o (map fst (team ObjectId st)).
Proof.
  intros Hnd. unfold create_tournament.
  destruct (tournament_team_ids tournament) as [|t0 ids] eqn:Eids.
  - intros _. split; [constructor | intros t []].
  - destruct (oids_of _ _ (t0 :: ids)) as [os|] eqn:Eos; [|discriminate].
    destruct (Nat.eqb_spec (count_documents_in ObjectId ObjectId_eqb
                              (team ObjectId st) os) (length (t0 :: ids)))
      as [Ec|]; [|discriminate].
    intros _.
    assert (Hlen : length os = length (t0 :: ids)).
    { rewrite <- (length_map Some os), <- (oids_of_map _ _ Eos).
      apply length_map. }
    rewrite <- Hlen in Ec.
    apply (count_documents_in_full _ _ Hnd) in Ec as [Hos Hall].
    split; [now apply (oids_of_NoDup _ os)|].
    intros t Ht. destruct (oids_of_in _ _ t Eos Ht) as (o & Ho & Hin).
    exists o. auto.
Qed.

(** X18: a tournament that lists a team identifier twice is refused with
    status 400 and nothing is stored: either an identifier is malformed, or
    the count of matching teams falls short of the length of the list. *)
Theorem create_tournament_refuses_duplicates (st : store ObjectId)
    (tournament : Tournament) :
  NoDup (map fst (team ObjectId st)) ->
  ~ NoDup (tournament_team_ids tournament) ->
  exists detail,
    create_tournament ObjectId ObjectId_eqb ObjectId_of_str create_document
      st tournament = (st, HTTPException 400 detail).
Proof.
  intros Hnd Hdup. unfold create_tournament.
  destruct (tournament_team_ids tournament) as [|t0 ids] eqn:Eids.
  - exfalso. apply Hdup. constructor.
  - destruct (oids_of _ _ (t0 :: ids)) as [os|] eqn:Eos; [|eauto].
    destruct (Nat.eqb_spec (count_documents_in ObjectId ObjectId_eqb
                              (team ObjectId st) os) (length (t0 :: ids)))
      as [Ec|]; [|eauto].
    exfalso. apply Hdup.
    assert (Hlen : length os = length (t0 :: ids)).
    { rewrite <- (length_map Some os), <- (oids_of_map _ _ Eos).
      apply length_map. }
    rewrite <- Hlen in Ec.
    apply (count_documents_in_full _ _ Hnd) in Ec as [Hos _].
    now apply (oids_of_NoDup _ os).
Qed.

(** X19: a tournament whose team identifiers are well formed, pairwise
    different as [ObjectId]s and all identifiers of stored teams passes the
    check: the handler ends as [create_document] does. *)
Theorem create_tournament_passes (st : store ObjectId)
    (tournament : Tournament) (os : list ObjectId) :
  NoDup (map fst (team ObjectId st)) ->
  oids_of ObjectId ObjectId_of_str (tournament_team_ids tournament) = Some os ->
  NoDup os -> (forall o, In o os -> In o (map fst (team ObjectId st))) ->
  create_tournament ObjectId ObjectId_eqb ObjectId_of_str create_document
    st tournament
  = match create_document st tournament with
    | (st', Some new_id) => (st', Returns new_id)
    | (st', None) => (st', Raises)
    end.
Proof.
  intros Hnd Eos Hos Hall. unfold create_tournament.
  destruct (tournament_team_ids tournament) as [|t0 ids] eqn:Eids;
    [reflexivity|].
  rewrite Eos.
  assert (Hlen : length os = length (t0 :: ids)).
  { rewrite <- (length_map Some os), <- (oids_of_map _ _ Eos).
    apply length_map. }
  rewrite <- Hlen.
  rewrite (proj2 (count_documents_in_full _ os Hnd) (conj Hos Hall)).
  now rewrite Nat.eqb_refl.
Qed.

(** X20: a tournament of at least two teams that [create_tournament]
    accepted can be scheduled in full: "BYE" being no well-formed
    identifier, [round_robin_pairings] on its team identifiers returns
    n * (n - 1) / 2 pairs, each two teams meeting exactly once. *)
Theorem accepted_tournament_schedules (st st' : store ObjectId)
    (tournament : Tournament) (new_id : string) :
  NoDup (map fst (team ObjectId st)) ->
  ObjectId_of_str Scheduler.BYE = None ->
  create_tournament ObjectId ObjectId_eqb ObjectId_of_str create_document
    st tournament = (st', Returns new_id) ->
  let ids := tournament_team_ids tournament in
  exists out,
    Scheduler.round_robin_pairings ids = Some out
    /\ length out = length ids * (length ids - 1) / 2
    /\ forall a b, In a ids -> In b ids -> a <> b ->
         Scheduler.fixture_count a b out = 1.
Proof.
  intros Hnd Hbye Hacc ids.
  assert (H : NoDup ids /\ ~ In Scheduler.BYE ids).
  { unfold create_tournament in Hacc. subst ids.
    destruct (tournament_team_ids tournament) as [|t0 l] eqn:Eids.
    - split; [constructor | intros []].
    - destruct (oids_of _ _ (t0 :: l)) as [os|] eqn:Eos; [|discriminate].
      destruct (Nat.eqb_spec (count_documents_in ObjectId ObjectId_eqb
                                (team ObjectId st) os) (length (t0 :: l)))
        as [Ec|]; [|discriminate].
      assert (Hlen : length os = length (t0 :: l)).
      { rewrite <- (length_map Some os), <- (oids_of_map _ _ Eos).
        apply length_map. }
      rewrite <- Hlen in Ec.
      apply (count_documents_in_full _ _ Hnd) in Ec as [Hos _].
      split; [now apply (oids_of_NoDup _ os)|].
      intros Hin. destruct (oids_of_in _ _ _ Eos Hin) as (o & Ho & _).
      congruence. }
  destruct H as [Hids Hb].
  exists (Scheduler.schedule_of (Scheduler.padded ids)).
  split; [apply round_robin_pairings_closed|].
  now apply schedule_complete.
Qed.

End RegistryFacts.

Section StandingsHandler.

Import Schemas Handlers Registry.

Variable ObjectId : Type.
Variable ObjectId_eqb : ObjectId -> ObjectId -> bool.
Variable ObjectId_of_str : string -> option ObjectId.
Variable ObjectId_str : ObjectId -> string.

(** X21: the handler [standings] answers no 404: its only [HTTPException]
    is the 400 of a malformed identifier, and for a well-formed identifier
    of no stored tournament the subscript on the missing document raises. *)
Theorem standings_no_not_found (st : store ObjectId) (tid : string) :
  (forall code detail,
     Registry.standings ObjectId ObjectId_eqb ObjectId_of_str ObjectId_str
       st tid = HTTPException code detail ->
     code = 400 /\ detail = "Invalid id format")
  /\ (forall o,
        ObjectId_of_str tid = Some o ->
        find_one ObjectId ObjectId_eqb
          (Handlers.tournament ObjectId (collections ObjectId st)) o = None ->
        Registry.standings ObjectId ObjectId_eqb ObjectId_of_str ObjectId_str
          st tid = Raises).
Proof.
  unfold Registry.standings. split.
  - intros code detail.
    destruct (ObjectId_of_str tid) as [o|]; [|now intros [= <- <-]].
    destruct (find_one _ _ _ o) as [t|]; [|discriminate].
    destruct (team_ids t) as [ids|]; [|discriminate].
    destruct (oids_of _ _ ids); [discriminate | now intros [= <- <-]].
  - intros o -> ->. reflexivity.
Qed.

End StandingsHandler.

Section RegistryRuns.

Import Schemas Handlers Registry.

Lemma create_tournament_accepted_witness :
  NoDup ["a"; "b"]
  /\ forall t, In t ["a"; "b"] ->
       exists o, (if String.eqb t "BYE" then None else Some t) = Some o
                 /\ In o ["a"; "b"].
Proof.
  apply (create_tournament_accepted string String.eqb
           (fun s => if String.eqb s "BYE" then None else Some s)
           (fun st _ => (st, Some "t1")) String.eqb_eq
           (mkStore string [("a", mkTeamRecord "As" None None);
                            ("b", mkTeamRecord "Bs" None None)]
              (mkDatabase string [] []))
           (mkStore string [("a", mkTeamRecord "As" None None);
                            ("b", mkTeamRecord "Bs" None None)]
              (mkDatabase string [] []))
           (mkTournamentRecord "Cup" None ["a"; "b"]) "t1").
  - repeat constructor; cbn; intuition discriminate.
  - reflexivity.
Defined.

Lemma create_tournament_refuses_duplicates_witness :
  let st := mkStore string [("a", mkTeamRecord "As" None None)]
              (mkDatabase string [] []) in
  exists detail,
    create_tournament string String.eqb
      (fun s => if String.eqb s "BYE" then None else Some s)
      (fun st _ => (st, Some "t1")) st
      (mkTournamentRecord "Cup" None ["a"; "a"])
    = (st, HTTPException 400 detail).
Proof.
  intros st.
  apply (create_tournament_refuses_duplicates string String.eqb
           (fun s => if String.eqb s "BYE" then None else Some s)
           (fun st _ => (st, Some "t1")) String.eqb_eq st
           (mkTournamentRecord "Cup" None ["a"; "a"])).
  - repeat constructor; cbn; intuition discriminate.
  - cbn. intros H. apply NoDup_cons_iff in H as [H _]. apply H. now left.
Defined.

Lemma create_tournament_passes_witness :
  let st := mkStore string [("a", mkTeamRecord "As" None None);
                            ("b", mkTeamRecord "Bs" None None)]
              (mkDatabase string [] []) in
  create_tournament string String.eqb
    (fun s => if String.eqb s "BYE" then None else Some s)
    (fun st _ => (st, Some "t1")) st
    (mkTournamentRecord "Cup" None ["b"; "a"])
  = (st, Returns "t1").
Proof.
  intros st.
  apply (create_tournament_passes string String.eqb
           (fun s => if String.eqb s "BYE" then None else Some s)
           (fun st _ => (st, Some "t1")) String.eqb_eq st
           (mkTournamentRecord "Cup" None ["b"; "a"]) ["b"; "a"]).
  - repeat constructor; cbn; intuition discriminate.
  - reflexivity.
  - repeat constructor; cbn; intuition discriminate.
  - cbn. intuition.
Defined.

Lemma accepted_tournament_schedules_witness :
  exists out,
    Scheduler.round_robin_pairings ["a"; "b"] = Some out
    /\ length out = 2 * (2 - 1) / 2
    /\ forall a b, In a ["a"; "b"] -> In b ["a"; "b"] -> a <> b ->
         Scheduler.fixture_count a b out = 1.
Proof.
  apply (accepted_tournament_schedules string String.eqb
           (fun s => if String.eqb s "BYE" then None else Some s)
           (fun st _ => (st, Some "t1")) String.eqb_eq
           (mkStore string [("a", mkTeamRecord "As" None None);
                            ("b", mkTeamRecord "Bs" None None)]
              (mkDatabase string [] []))
           (mkStore string [("a", mkTeamRecord "As" None None);
                            ("b", mkTeamRecord "Bs" None None)]
              (mkDatabase string [] []))
           (mkTournamentRecord "Cup" None ["a"; "b"]) "t1").
  - repeat constructor; cbn; intuition discriminate.
  - reflexivity.
  - reflexivity.
Defined.

Lemma standings_no_not_found_witness :
  Registry.standings string String.eqb Some (fun o => o)
    (mkStore string [] (mkDatabase string [] [])) "t1"
  = Raises.
Proof.
  apply (proj2 (standings_no_not_found string String.eqb Some (fun o => o)
                  (mkStore string [] (mkDatabase string [] [])) "t1") "t1");
    reflexivity.
Defined.

End RegistryRuns.

(** * The examples of the specification, run *)

Section Examples.

Import Schemas Standings.

Example pairings_of_three :
  Scheduler.round_robin_pairings ["A"; "B"; "C"]
  = Some [("B", "C"); ("A", "C"); ("A", "B")].
Proof. vm_compute. reflexivity. Qed.

Example pairings_of_four :
  Scheduler.round_robin_pairings ["A"; "B"; "C"; "D"]
  = Some [("A", "D"); ("B", "C"); ("A", "C"); ("D", "B"); ("A", "B");
          ("C", "D")].
Proof. vm_compute. reflexivity. Qed.

Example pairings_of_none : Scheduler.round_robin_pairings [] = Some [].
Proof. reflexivity. Qed.

Example standings_of_a_win :
  standings [mkTeam "Y" (Some "Ys"); mkTeam "X" (Some "Xs")]
    [mkMatch "t" "X" "Y" None completed (Some 3%Z) (Some 1%Z)]
  = [mkRow "X" (Some "Xs") 1 1 0 0 3 1 2 3;
     mkRow "Y" (Some "Ys") 1 0 0 1 1 3 (-2) 0].
Proof. vm_compute. reflexivity. Qed.

Example standings_of_a_draw :
  standings [mkTeam "X" (Some "Xs"); mkTeam "Y" (Some "Ys")]
    [mkMatch "t" "X" "Y" None completed (Some 2%Z) (Some 2%Z)]
  = [mkRow "X" (Some "Xs") 1 0 1 0 2 2 0 1;
     mkRow "Y" (Some "Ys") 1 0 1 0 2 2 0 1].
Proof. vm_compute. reflexivity. Qed.

End Examples.
